(** * Hartree-Fock SCF drivers of the QM/MM study group notebooks

    Shallow embedding of
    - the unrestricted driver with DIIS, [02_SCF/advanced/uhf_diis_psi4.ipynb]
      (module [UHF] below), and
    - the restricted driver that opens the MP2 notebook (module [RHF]).

    Numbers.  The notebooks compute in IEEE binary64 through NumPy.  Here a
    float is idealised as an exact rational ([Qc], canonical fractions with
    Leibniz equality): rounding, overflow and NaN are outside the model, and
    every statement below is a statement of exact arithmetic.

    Arrays.  A two-dimensional [np.ndarray] is a list of rows.  The loops of
    the notebooks only index inside [range(num_ao)], so reads use a total
    lookup (default [0]) and the in-place update [M[i, j] += v] is [alter];
    Python would raise [IndexError] outside the shape, which no loop below
    reaches on arrays of shape [(num_ao, num_ao)].

    Library calls.  [scipy.linalg.eigh], [np.linalg.solve], [np.sqrt] and
    [scipy.linalg.fractional_matrix_power] are not code of the repository;
    they are the fields of the class [NumLib], and the drivers are
    parametric in it. *)

From Stdlib Require Import QArith Qcanon Qcabs.
From stdpp Require Import base numbers list gmap.

Local Open Scope Qc_scope.

(** ** Scalars *)

(** The literals [0.5] and [2.0]. *)
Definition half : Qc := 1 / 2.
Definition two : Qc := 2.

(** [x < y] on floats, as a boolean. *)
Definition Qcltb (x y : Qc) : bool := bool_decide (x < y).

(** ** Loops *)

(** [for i in range(n): x = body i x] *)
Definition for_range {X : Type} (n : nat) (body : nat -> X -> X) (x : X) : X :=
  fold_left (fun acc i => body i acc) (seq 0 n) x.

(** Mathematical sum over [k < n], used in statements only. *)
Fixpoint qsum (n : nat) (f : nat -> Qc) : Qc :=
  match n with
  | O => 0
  | S k => qsum k f + f k
  end.

(** ** Arrays *)

Abbreviation vector := (list Qc).
Abbreviation matrix := (list (list Qc)).

(** [np.zeros((r, c))] *)
Definition zeros (r c : nat) : matrix := replicate r (replicate c 0).

(** [np.zeros_like(M)] *)
Definition zeros_like (M : matrix) : matrix :=
  map (fun row => replicate (length row) 0) M.

(** [v[i]] *)
Definition vget (v : vector) (i : nat) : Qc := default 0 (v !! i).

(** [M[i, j]] *)
Definition mget (M : matrix) (i j : nat) : Qc :=
  match M !! i with
  | Some row => vget row j
  | None => 0
  end.

(** [M[i, j] = v] *)
Definition mset (M : matrix) (i j : nat) (v : Qc) : matrix :=
  alter (fun row => <[j := v]> row) i M.

(** [M[i, j] += v] *)
Definition madd (M : matrix) (i j : nat) (v : Qc) : matrix :=
  alter (alter (fun x => x + v) j) i M.

(** Elementwise binary operation on arrays of one shape. *)
Definition map2 (f : Qc -> Qc -> Qc) (A B : matrix) : matrix :=
  zip_with (zip_with f) A B.

(** [A + B], [A - B], [np.multiply(A, B)], [c * A], [A ** 2] *)
Definition mplus : matrix -> matrix -> matrix := map2 Qcplus.
Definition mminus : matrix -> matrix -> matrix := map2 Qcminus.
Definition np_multiply : matrix -> matrix -> matrix := map2 Qcmult.
Definition mscale (c : Qc) (A : matrix) : matrix := map (map (Qcmult c)) A.
Definition msquare (A : matrix) : matrix := map (map (fun x => x * x)) A.

(** [np.sum(v)], [np.sum(M)] *)
Definition vsum (v : vector) : Qc := fold_right Qcplus 0 v.
Definition np_sum (M : matrix) : Qc := vsum (map vsum M).

(** [M.T] *)
Definition transpose (M : matrix) : matrix :=
  map (fun j => map (fun row => vget row j) M) (seq 0 (length (default [] (head M)))).

(** [A @ B] *)
Definition dot (u v : vector) : Qc := vsum (zip_with Qcmult u v).
Definition matmul (A B : matrix) : matrix :=
  map (fun row => map (dot row) (transpose B)) A.

(** [np.einsum('ij,ij->', A, B)] *)
Definition einsum_ij_ij (A B : matrix) : Qc := np_sum (np_multiply A B).

(** Shape [(n, n)]. *)
Definition square (n : nat) (M : matrix) : Prop :=
  length M = n /\ Forall (fun row => length row = n) M.

(** [M] equals its transpose, entry by entry. *)
Definition symmetric (M : matrix) : Prop :=
  forall i j, mget M i j = mget M j i.

(** ** Library calls *)

(** The numerical library the notebooks import.
    - [eigh F S] is [scipy.linalg.eigh(F, S)]: eigenvalues in ascending
      order and the matrix whose columns are the eigenvectors;
    - [linalg_solve B r] is [np.linalg.solve(B, r)]; [None] stands for the
      [LinAlgError] NumPy raises on a singular matrix;
    - [np_sqrt] is [np.sqrt];
    - [fractional_matrix_power S p] is the SciPy function of that name. *)
Class NumLib := {
  eigh : matrix -> matrix -> vector * matrix;
  linalg_solve : matrix -> vector -> option vector;
  np_sqrt : Qc -> Qc;
  fractional_matrix_power : matrix -> Qc -> matrix
}.

(** A call either returns or raises [numpy.linalg.LinAlgError]; nothing in
    the notebooks catches it. *)
Inductive result (X : Type) : Type :=
  | Ok (x : X)
  | LinAlgError.
Arguments Ok {X} x.
Arguments LinAlgError {X}.

Definition bind {X Y : Type} (r : result X) (k : X -> result Y) : result Y :=
  match r with
  | Ok x => k x
  | LinAlgError => LinAlgError
  end.

(** Stopping criteria ([iteration_max], [convergence_E], [convergence_DM]).
    [iteration_max] is only compared for equality with the pass counter,
    which starts at [1]; a Python ceiling below [1] behaves as [0] does. *)
Record config := {
  iteration_max : nat;
  convergence_E : Qc;
  convergence_DM : Qc
}.

(** The values both notebooks assign: [100], [1e-9], [1e-5]. *)
Definition notebook_config : config :=
  {| iteration_max := 100;
     convergence_E := Q2Qc (1 # 1000000000);
     convergence_DM := Q2Qc (1 # 100000) |}.

(** [F_list[x]]; the notebooks index the lists below their length, where
    Python would otherwise raise [IndexError]. *)
Definition mat_at (l : list matrix) (x : nat) : matrix := default [] (l !! x).

(** The density loop shared by the drivers, for one pair [(i, j)]:
    [for k in range(N): D[i, j] += C[i, k] * C[j, k]] *)
Definition density_entry (N : nat) (C : matrix) (i j : nat) (D : matrix) : matrix :=
  for_range N (fun k D => madd D i j (mget C i k * mget C j k)) D.

(** ** The unrestricted driver with DIIS ([uhf_diis_psi4.ipynb]) *)

Module UHF.

(** STEP 1 and STEP 2: what Psi4 hands to the notebook. *)
Record molecule := {
  num_ao : nat;
  num_elec_alpha : nat;
  num_elec_beta : nat;
  E_nuc : Qc;
  S : matrix;
  T : matrix;
  V : matrix;
  eri : nat -> nat -> nat -> nat -> Qc
}.

(** [H = T + V] *)
Definition H (m : molecule) : matrix := mplus (T m) (V m).

(** The variables the SCF cell reads and writes.  [F_alpha], [F_beta],
    [C_alpha] and [C_beta] are unbound before the first iteration and are
    assigned before they are read; the empty array stands for unbound.
    The orbital energies [E_orbitals_alpha] and [E_orbitals_beta] are
    written and never read, and are not kept. *)
Record state := {
  iteration_num : nat;
  E_total : Qc;
  E_elec : Qc;
  iteration_E_diff : Qc;
  iteration_rmsc_dm : Qc;
  converged : bool;
  exceeded_iterations : bool;
  D_alpha : matrix;
  D_beta : matrix;
  D_total : matrix;
  F_alpha : matrix;
  F_beta : matrix;
  C_alpha : matrix;
  C_beta : matrix;
  F_list_alpha : list matrix;
  F_list_beta : list matrix;
  DIIS_resid_alpha : list matrix;
  DIIS_resid_beta : list matrix
}.

(** The density loops of STEP 3 and of the SCF cell: one pass over
    [(i, j)] fills both channels. *)
Definition build_densities (n Na Nb : nat) (Ca Cb : matrix) : matrix * matrix :=
  for_range n (fun i =>
    for_range n (fun j '(Da, Db) =>
      (density_entry Na Ca i j Da, density_entry Nb Cb i j Db)))
    (zeros n n, zeros n n).

(** "Form G matrix": the four nested loops of the SCF cell. *)
Definition form_G (m : molecule) (Da Db : matrix) : matrix * matrix :=
  let n := num_ao m in
  for_range n (fun i =>
    for_range n (fun j =>
      for_range n (fun k =>
        for_range n (fun l '(G_alpha, G_beta) =>
          (madd G_alpha i j
             (mget Da k l * (two * eri m i j k l - eri m i k j l)),
           madd G_beta i j
             (mget Db k l * (two * eri m i j k l - eri m i k j l)))))))
    (zeros n n, zeros n n).

(** "Calculate electronic energy" *)
Definition electronic_energy (m : molecule) (Dt Da Db Fa Fb : matrix) : Qc :=
  half * np_sum (mplus (mplus (np_multiply Dt (H m)) (np_multiply Da Fa))
                       (np_multiply Db Fb)).

(** "Build B matrix" of [diis]; [np.empty] leaves the cells unspecified
    and every one of them is written below, so it is modelled by zeros. *)
Definition pulay_B (diis_res : list matrix) (len : nat) : matrix :=
  let dim_B := (len + 1)%nat in
  let B := zeros dim_B dim_B in
  (* B[-1, :] = -1 *)
  let B := alter (fun row => replicate (length row) (- 1)) (dim_B - 1)%nat B in
  (* B[:, -1] = -1 *)
  let B := map (fun row => <[(dim_B - 1)%nat := - 1]> row) B in
  (* B[-1, -1] = 0 *)
  let B := mset B (dim_B - 1) (dim_B - 1) 0 in
  for_range len (fun i =>
    for_range len (fun j B =>
      mset B i j (einsum_ij_ij (mat_at diis_res i) (mat_at diis_res j)))) B.

(** "Right hand side of Pulay eqn" *)
Definition pulay_right (len : nat) : vector :=
  <[len := - 1]> (replicate (len + 1) 0).

Section Driver.
Context {lib : NumLib}.

(** STEP 3: the AO orthogonalisation matrix. *)
Definition A (m : molecule) : matrix := fractional_matrix_power (S m) (- half).

(** [def diis(F_list, diis_res)] *)
Definition diis (F_list diis_res : list matrix) : result matrix :=
  let B := pulay_B diis_res (length F_list) in
  let right := pulay_right (length F_list) in
  match linalg_solve B right with
  | None => LinAlgError
  | Some cn =>
      let F_diis := zeros_like (mat_at F_list 0) in
      Ok (for_range (length cn - 1) (fun x F_diis =>
            mplus F_diis (mscale (vget cn x) (mat_at F_list x))) F_diis)
  end.

(** "Build the DIIS AO gradient" *)
Definition diis_gradient (m : molecule) (F D : matrix) : matrix :=
  matmul (matmul (transpose (A m))
            (mminus (matmul (matmul F D) (S m)) (matmul (matmul (S m) D) F)))
         (A m).

(** STEP 3 and the loop variables of the cell before the SCF cell. *)
Definition initial_state (m : molecule) : state :=
  let '(E_orbitals, C) := eigh (H m) (S m) in
  let '(Da, Db) :=
    build_densities (num_ao m) (num_elec_alpha m) (num_elec_beta m) C C in
  {| iteration_num := 0;
     E_total := 0;
     E_elec := 0;
     iteration_E_diff := 0;
     iteration_rmsc_dm := 0;
     converged := false;
     exceeded_iterations := false;
     D_alpha := Da;
     D_beta := Db;
     D_total := mplus Da Db;
     F_alpha := [];
     F_beta := [];
     C_alpha := [];
     C_beta := [];
     F_list_alpha := [];
     F_list_beta := [];
     DIIS_resid_alpha := [];
     DIIS_resid_beta := [] |}.

(** The convergence test of the cell. *)
Definition convergence_test (cfg : config) (E_diff rmsc_dm : Qc) : bool :=
  Qcltb (Qcabs E_diff) (convergence_E cfg) && Qcltb rmsc_dm (convergence_DM cfg).

(** "Form G matrix" and "Build fock matrices" *)
Definition build_fock (m : molecule) (Da Db : matrix) : matrix * matrix :=
  let '(G_alpha, G_beta) := form_G m Da Db in
  (mplus (H m) G_alpha, mplus (H m) G_beta).

(** [if iteration_num >= 2:] "Preform DIIS to get Fock Matrix".  Without
    the branch the Fock matrices keep their values. *)
Definition extrapolate (iteration_num : nat) (F_alpha F_beta : matrix)
    (F_list_alpha F_list_beta DIIS_resid_alpha DIIS_resid_beta : list matrix)
  : result (matrix * matrix) :=
  if (2 <=? iteration_num)%nat then
    bind (diis F_list_alpha DIIS_resid_alpha) (fun F_alpha =>
    bind (diis F_list_beta DIIS_resid_beta) (fun F_beta =>
    Ok (F_alpha, F_beta)))
  else Ok (F_alpha, F_beta).

(** One pass through the body of the [while] loop.  The unused
    [diis_rms], the timer and the printing are left out. *)
Definition iteration (cfg : config) (m : molecule) (st : state) : result state :=
  let iteration_num' := Datatypes.S (iteration_num st) in
  let E_elec_last := E_elec st in
  let D_total_last := D_total st in
  let '(F_alpha0, F_beta0) := build_fock m (D_alpha st) (D_beta st) in
  let E_elec' :=
    electronic_energy m (D_total st) (D_alpha st) (D_beta st) F_alpha0 F_beta0 in
  let diis_r_alpha := diis_gradient m F_alpha0 (D_alpha st) in
  let diis_r_beta := diis_gradient m F_beta0 (D_beta st) in
  let F_list_alpha' := F_list_alpha st ++ F_alpha0 :: nil in
  let F_list_beta' := F_list_beta st ++ F_beta0 :: nil in
  let DIIS_resid_alpha' := DIIS_resid_alpha st ++ diis_r_alpha :: nil in
  let DIIS_resid_beta' := DIIS_resid_beta st ++ diis_r_beta :: nil in
  bind (extrapolate iteration_num' F_alpha0 F_beta0
          F_list_alpha' F_list_beta' DIIS_resid_alpha' DIIS_resid_beta')
  (fun '(F_alpha', F_beta') =>
  let '(E_orbitals_alpha, C_alpha') := eigh F_alpha' (S m) in
  let '(E_orbitals_beta, C_beta') := eigh F_beta' (S m) in
  let '(D_alpha', D_beta') :=
    build_densities (num_ao m) (num_elec_alpha m) (num_elec_beta m)
      C_alpha' C_beta' in
  let D_total' := mplus D_alpha' D_beta' in
  let iteration_E_diff' := Qcabs (E_elec' - E_elec_last) in
  let iteration_rmsc_dm' :=
    np_sqrt (np_sum (msquare (mminus D_total' D_total_last))) in
  let test := convergence_test cfg iteration_E_diff' iteration_rmsc_dm' in
  Ok {| iteration_num := iteration_num';
        E_total := if test then E_elec' + E_nuc m else E_total st;
        E_elec := E_elec';
        iteration_E_diff := iteration_E_diff';
        iteration_rmsc_dm := iteration_rmsc_dm';
        converged := if test then true else converged st;
        exceeded_iterations :=
          if (iteration_num' =? iteration_max cfg)%nat then true
          else exceeded_iterations st;
        D_alpha := D_alpha';
        D_beta := D_beta';
        D_total := D_total';
        F_alpha := F_alpha';
        F_beta := F_beta';
        C_alpha := C_alpha';
        C_beta := C_beta';
        F_list_alpha := F_list_alpha';
        F_list_beta := F_list_beta';
        DIIS_resid_alpha := DIIS_resid_alpha';
        DIIS_resid_beta := DIIS_resid_beta' |}).

(** [while (not converged and not exceeded_iterations)] *)
Definition loop_guard (st : state) : bool :=
  negb (converged st) && negb (exceeded_iterations st).

(** How a run of the cell ends: the loop is left, an exception escapes, or
    (an artefact of the model only) the step budget [fuel] is used up. *)
Inductive outcome : Type :=
  | Finished (st : state)
  | Raised
  | OutOfFuel.

Fixpoint scf_loop (fuel : nat) (cfg : config) (m : molecule) (st : state) : outcome :=
  if loop_guard st then
    match fuel with
    | O => OutOfFuel
    | Datatypes.S fuel' =>
        match iteration cfg m st with
        | Ok st' => scf_loop fuel' cfg m st'
        | LinAlgError => Raised
        end
    end
  else Finished st.

(** The whole notebook: core guess, then the loop. *)
Definition run (fuel : nat) (cfg : config) (m : molecule) : outcome :=
  scf_loop fuel cfg m (initial_state m).

(** The states at the head of the [while] loop during a run. *)
Inductive reachable (cfg : config) (m : molecule) : state -> Prop :=
  | reach_initial : reachable cfg m (initial_state m)
  | reach_iteration (st st' : state) :
      reachable cfg m st ->
      loop_guard st = true ->
      iteration cfg m st = Ok st' ->
      reachable cfg m st'.

End Driver.

End UHF.

(** ** The restricted driver (the SCF cell of the MP2 notebook) *)

Module RHF.

(** What PySCF hands to the notebook; [eri] is the one-dimensional array
    of the 8-fold symmetry-packed integrals ([aosym='s8']). *)
Record molecule := {
  num_ao : nat;
  num_elec_alpha : nat;
  num_elec_beta : nat;
  E_nuc : Qc;
  S : matrix;
  T : matrix;
  V : matrix;
  eri : nat -> Qc
}.

(** [H = T + V] *)
Definition H (m : molecule) : matrix := mplus (T m) (V m).

(** [def idx2(i, j)].  The dictionary [__idx2_cache] only memoises the
    value computed here; [i*(i+1)] is even, so [int(i*(i+1)/2+j)] is the
    exact quotient. *)
Definition idx2 (i j : nat) : nat :=
  if (j <=? i)%nat then (i * (i + 1) / 2 + j)%nat
  else (j * (j + 1) / 2 + i)%nat.

(** [def idx4(i, j, k, l)] *)
Definition idx4 (i j k l : nat) : nat := idx2 (idx2 i j) (idx2 k l).

Record state := {
  iteration_num : nat;
  E_scf_elec : Qc;
  iteration_E_diff : Qc;
  iteration_rmsc_dm : Qc;
  converged : bool;
  exceeded_iterations : bool;
  D : matrix;
  F : matrix;
  C : matrix
}.

(** "set inital density matrix to zero" and the loop variables. *)
Definition initial_state (m : molecule) : state :=
  {| iteration_num := 0;
     E_scf_elec := 0;
     iteration_E_diff := 0;
     iteration_rmsc_dm := 0;
     converged := false;
     exceeded_iterations := false;
     D := zeros (num_ao m) (num_ao m);
     F := [];
     C := [] |}.

(** "form G matrix" *)
Definition form_G (m : molecule) (D : matrix) : matrix :=
  let n := num_ao m in
  for_range n (fun i =>
    for_range n (fun j =>
      for_range n (fun k =>
        for_range n (fun l G =>
          madd G i j
            (mget D k l *
             (two * eri m (idx4 i j k l) - eri m (idx4 i k j l)))))))
    (zeros n n).

(** "compute new density matrix" *)
Definition build_density (n N : nat) (C : matrix) : matrix :=
  for_range n (fun i => for_range n (fun j D => density_entry N C i j D))
    (zeros n n).

Section Driver.
Context {lib : NumLib}.

Definition convergence_test (cfg : config) (E_diff rmsc_dm : Qc) : bool :=
  Qcltb (Qcabs E_diff) (convergence_E cfg) && Qcltb rmsc_dm (convergence_DM cfg).

(** One pass through the body of the [while] loop. *)
Definition iteration (cfg : config) (m : molecule) (st : state) : state :=
  let iteration_num' := Datatypes.S (iteration_num st) in
  let E_elec_last := E_scf_elec st in
  let D_last := D st in
  let G := form_G m (D st) in
  let F' := mplus (H m) G in
  let '(E_orbitals, C') := eigh F' (S m) in
  let D' := build_density (num_ao m) (num_elec_alpha m) C' in
  let E_scf_elec' := np_sum (np_multiply D' (mplus (H m) F')) in
  let iteration_E_diff' := Qcabs (E_scf_elec' - E_elec_last) in
  let iteration_rmsc_dm' := np_sqrt (np_sum (msquare (mminus D' D_last))) in
  {| iteration_num := iteration_num';
     E_scf_elec := E_scf_elec';
     iteration_E_diff := iteration_E_diff';
     iteration_rmsc_dm := iteration_rmsc_dm';
     converged :=
       if convergence_test cfg iteration_E_diff' iteration_rmsc_dm' then true
       else converged st;
     exceeded_iterations :=
       if (iteration_num' =? iteration_max cfg)%nat then true
       else exceeded_iterations st;
     D := D';
     F := F';
     C := C' |}.

(** [while (not converged and not exceeded_iterations)] *)
Definition loop_guard (st : state) : bool :=
  negb (converged st) && negb (exceeded_iterations st).

(** [None]: the step budget of the model is used up before the loop ends. *)
Fixpoint scf_loop (fuel : nat) (cfg : config) (m : molecule) (st : state)
  : option state :=
  if loop_guard st then
    match fuel with
    | O => None
    | Datatypes.S fuel' => scf_loop fuel' cfg m (iteration cfg m st)
    end
  else Some st.

Definition run (fuel : nat) (cfg : config) (m : molecule) : option state :=
  scf_loop fuel cfg m (initial_state m).

(** "calculate total energy", after the loop. *)
Definition E_scf_total (m : molecule) (st : state) : Qc := E_scf_elec st + E_nuc m.

End Driver.

End RHF.

(** ** Reference instances of the library calls, for closed examples *)

(** Determinant by expansion along the first row; [n] is the dimension. *)
Fixpoint det (n : nat) (M : matrix) : Qc :=
  match n with
  | O => 1
  | Datatypes.S n' =>
      let row0 := default [] (head M) in
      let rest := tail M in
      for_range n (fun j acc =>
        acc + (if Nat.even j then 1 else - 1) * vget row0 j *
              det n' (map (fun row => take j row ++ drop (Datatypes.S j) row) rest)) 0
  end.

(** Cramer's rule: the exact solution of [B x = r], and [None] exactly when
    [B] is singular, as [np.linalg.solve] raises [LinAlgError] then. *)
Definition exact_solve (B : matrix) (r : vector) : option vector :=
  let n := length B in
  let d := det n B in
  if bool_decide (d = 0) then None
  else Some (map (fun i =>
          det n (imap (fun k row => <[i := vget r k]> row) B) / d) (seq 0 n)).

(** Square root, exact on squares of rationals (the integer square roots
    of numerator and denominator otherwise). *)
Definition exact_sqrt (x : Qc) : Qc :=
  Q2Qc (Z.sqrt (Qnum (this x)) # Pos.sqrt (Qden (this x))).

(** Insertion into a list of (value, index) pairs ordered by value. *)
Fixpoint insert_by_value (x : Qc * nat) (l : list (Qc * nat)) : list (Qc * nat) :=
  match l with
  | nil => x :: nil
  | y :: l' =>
      if bool_decide (fst x <= fst y) then x :: y :: l'
      else y :: insert_by_value x l'
  end.

(** [eigh(F, S)] for a diagonal [F] and [S] the identity: the eigenvalues
    are the diagonal entries in ascending order and the eigenvectors are
    the corresponding unit vectors. *)
Definition eigh_diagonal (F S : matrix) : vector * matrix :=
  let n := length F in
  let order :=
    fold_right insert_by_value nil (map (fun i => (mget F i i, i)) (seq 0 n)) in
  (map fst order,
   map (fun i => map (fun p => if bool_decide (snd p = i) then 1 else 0) order)
       (seq 0 n)).

(** An orthonormal basis in which the Fock matrix is diagonal: [S] is the
    identity, so every power of [S] is [S]. *)
Definition diagonal_basis : NumLib :=
  {| eigh := eigh_diagonal;
     linalg_solve := exact_solve;
     np_sqrt := exact_sqrt;
     fractional_matrix_power := fun S _ => S |}.

(** ** Closed inputs used in the examples *)

(** Shape [(1, 1)]. *)
Definition mat1 (x : Qc) : matrix := (x :: nil) :: nil.

(** Shape [(2, 2)]. *)
Definition mat2 (a b c d : Qc) : matrix := (a :: b :: nil) :: (c :: d :: nil) :: nil.

Definition three : Qc := 1 + 2.

(** Two electrons of opposite spin in one normalised basis function:
    [H = [[-2]]], [(00|00) = 1]. *)
Definition helium : UHF.molecule :=
  {| UHF.num_ao := 1;
     UHF.num_elec_alpha := 1;
     UHF.num_elec_beta := 1;
     UHF.E_nuc := 0;
     UHF.S := mat1 1;
     UHF.T := mat1 1;
     UHF.V := mat1 (- three);
     UHF.eri := fun _ _ _ _ => 1 |}.

(** One alpha electron, no beta electron, in the same basis. *)
Definition hydrogen : UHF.molecule :=
  {| UHF.num_ao := 1;
     UHF.num_elec_alpha := 1;
     UHF.num_elec_beta := 0;
     UHF.E_nuc := 0;
     UHF.S := mat1 1;
     UHF.T := mat1 1;
     UHF.V := mat1 (- three);
     UHF.eri := fun _ _ _ _ => 1 |}.

(** The input of [helium] as the restricted notebook receives it. *)
Definition helium_packed : RHF.molecule :=
  {| RHF.num_ao := 1;
     RHF.num_elec_alpha := 1;
     RHF.num_elec_beta := 1;
     RHF.E_nuc := 0;
     RHF.S := mat1 1;
     RHF.T := mat1 1;
     RHF.V := mat1 (- three);
     RHF.eri := fun _ => 1 |}.

(** Two orthonormal basis functions with a diagonal core Hamiltonian and
    the integrals [(ii|kk) = 1], all others [0]; the Fock matrix of a
    diagonal density is then diagonal. *)
Definition two_site : UHF.molecule :=
  {| UHF.num_ao := 2;
     UHF.num_elec_alpha := 1;
     UHF.num_elec_beta := 1;
     UHF.E_nuc := 1;
     UHF.S := mat2 1 0 0 1;
     UHF.T := mat2 1 0 0 two;
     UHF.V := mat2 (- three) 0 0 (- two);
     UHF.eri := fun i j k l =>
       if bool_decide (i = j /\ k = l) then 1 else 0 |}.

(** A ceiling of one iteration with loose thresholds. *)
Definition one_pass_config : config :=
  {| iteration_max := 1;
     convergence_E := three + three;
     convergence_DM := 1 |}.

(** A ceiling of zero iterations. *)
Definition zero_ceiling_config : config :=
  {| iteration_max := 0;
     convergence_E := convergence_E notebook_config;
     convergence_DM := convergence_DM notebook_config |}.

(** ** Vocabulary of the statements *)

(** [body] maps arrays of shape [(n, n)] to arrays of that shape and adds
    [delta a b] to the entry [(a, b)]. *)
Definition adds (n : nat) (body : matrix -> matrix) (delta : nat -> nat -> Qc) : Prop :=
  forall G, square n G ->
    square n (body G) /\ forall a b, mget (body G) a b = mget G a b + delta a b.

(** The entry [(a, b)] inside the shape, [0] outside. *)
Definition inside (n a b : nat) (x : Qc) : Qc :=
  if bool_decide (a < n)%nat && bool_decide (b < n)%nat then x else 0.

(** [sum_{k < N} C[i, k] * C[j, k]] *)
Definition density_formula (N : nat) (C : matrix) (i j : nat) : Qc :=
  qsum N (fun k => mget C i k * mget C j k).

(** The integral combination both drivers contract with a density:
    [2.0 * (ij|kl) - (ik|jl)]. *)
Definition coulomb_exchange (e : nat -> nat -> nat -> nat -> Qc)
    (i j k l : nat) : Qc :=
  two * e i j k l - e i k j l.

(** The four nested loops over one accumulator, with the integral
    combination [t] left open:
    [G[i, j] += D[k, l] * t i j k l]. *)
Definition contraction (n : nat) (D : matrix)
    (t : nat -> nat -> nat -> nat -> Qc) : matrix :=
  for_range n (fun i =>
    for_range n (fun j =>
      for_range n (fun k =>
        for_range n (fun l G => madd G i j (mget D k l * t i j k l)))))
    (zeros n n).

(** [sum_{k, l < n} D[k, l] * t i j k l] *)
Definition contraction_formula (n : nat) (D : matrix)
    (t : nat -> nat -> nat -> nat -> Qc) (i j : nat) : Qc :=
  qsum n (fun k => qsum n (fun l => mget D k l * t i j k l)).

(** The permutational symmetry of the two-electron integrals:
    [(ij|kl) = (ji|kl) = (ij|lk) = (kl|ij)], which generate all eight. *)
Definition eightfold (e : nat -> nat -> nat -> nat -> Qc) : Prop :=
  forall i j k l,
    e i j k l = e j i k l /\ e i j k l = e i j l k /\ e i j k l = e k l i j.

(** The intermediate matrix as the notebook's markdown and the
    specification write it:
    [G_sigma[i, j] = sum_{k, l} Ptotal[k, l] * (ij|kl) - Psigma[k, l] * (ik|jl)]. *)
Definition G_unrestricted_formula (m : UHF.molecule) (Ptotal Psigma : matrix)
    (i j : nat) : Qc :=
  qsum (UHF.num_ao m) (fun k => qsum (UHF.num_ao m) (fun l =>
    mget Ptotal k l * UHF.eri m i j k l - mget Psigma k l * UHF.eri m i k j l)).

(** [B @ x] for a vector [x]. *)
Definition matvec (B : matrix) (x : vector) : vector := map (fun row => dot row x) B.

(** Shape and symmetry of everything the unrestricted loop keeps. *)
Definition symmetric_state (n : nat) (st : UHF.state) : Prop :=
  (square n (UHF.D_alpha st) /\ symmetric (UHF.D_alpha st)) /\
  (square n (UHF.D_beta st) /\ symmetric (UHF.D_beta st)) /\
  symmetric (UHF.D_total st) /\
  symmetric (UHF.F_alpha st) /\
  symmetric (UHF.F_beta st) /\
  Forall (fun M => square n M /\ symmetric M) (UHF.F_list_alpha st) /\
  Forall (fun M => square n M /\ symmetric M) (UHF.F_list_beta st).

(** A square array with determinant zero. *)
Definition singular (B : matrix) : Prop := det (length B) B = 0.

(** The lists of one channel after "Append lists" in the pass that starts
    from [st]: the trial Fock matrices and the residuals. *)
Definition appended_alpha {lib : NumLib} (m : UHF.molecule) (st : UHF.state)
  : list matrix * list matrix :=
  let F0 := fst (UHF.build_fock m (UHF.D_alpha st) (UHF.D_beta st)) in
  (UHF.F_list_alpha st ++ F0 :: nil,
   UHF.DIIS_resid_alpha st ++ UHF.diis_gradient m F0 (UHF.D_alpha st) :: nil).

Definition appended_beta {lib : NumLib} (m : UHF.molecule) (st : UHF.state)
  : list matrix * list matrix :=
  let F0 := snd (UHF.build_fock m (UHF.D_alpha st) (UHF.D_beta st)) in
  (UHF.F_list_beta st ++ F0 :: nil,
   UHF.DIIS_resid_beta st ++ UHF.diis_gradient m F0 (UHF.D_beta st) :: nil).

(** [np.linalg.solve] raises on the Pulay system of these lists. *)
Definition solve_raises {lib : NumLib} (lists : list matrix * list matrix) : Prop :=
  linalg_solve (UHF.pulay_B (snd lists) (length (fst lists)))
    (UHF.pulay_right (length (fst lists))) = None.

(** The two notebooks are given the same molecule: equal sizes, electron
    counts and one-electron matrices, and the packed integrals of the
    restricted notebook hold the integrals of the unrestricted one. *)
Definition same_inputs (mu : UHF.molecule) (mr : RHF.molecule) : Prop :=
  UHF.num_ao mu = RHF.num_ao mr /\
  UHF.num_elec_alpha mu = RHF.num_elec_alpha mr /\
  UHF.S mu = RHF.S mr /\
  UHF.T mu = RHF.T mr /\
  UHF.V mu = RHF.V mr /\
  forall i j k l,
    (i < UHF.num_ao mu)%nat -> (j < UHF.num_ao mu)%nat ->
    (k < UHF.num_ao mu)%nat -> (l < UHF.num_ao mu)%nat ->
    UHF.eri mu i j k l = RHF.eri mr (RHF.idx4 i j k l).

(** Both spin channels of the unrestricted loop hold the same data. *)
Definition channels_agree (st : UHF.state) : Prop :=
  UHF.D_alpha st = UHF.D_beta st /\
  UHF.F_alpha st = UHF.F_beta st /\
  UHF.C_alpha st = UHF.C_beta st /\
  UHF.F_list_alpha st = UHF.F_list_beta st /\
  UHF.DIIS_resid_alpha st = UHF.DIIS_resid_beta st.

(** ** The packed index with its cache *)

(** [__idx2_cache]: a dictionary from index pairs to packed indices. *)
Abbreviation idx2_cache := (gmap (nat * nat) nat).

(** [def idx2(i, j)] with the dictionary threaded through: a hit returns
    the stored value, a miss computes, stores and returns it. *)
Definition idx2_memo (i j : nat) (cache : idx2_cache) : nat * idx2_cache :=
  match cache !! (i, j) with
  | Some v => (v, cache)
  | None =>
      if (j <=? i)%nat
      then ((i * (i + 1) / 2 + j)%nat, <[(i, j) := (i * (i + 1) / 2 + j)%nat]> cache)
      else ((j * (j + 1) / 2 + i)%nat, <[(i, j) := (j * (j + 1) / 2 + i)%nat]> cache)
  end.

(** [def idx4(i, j, k, l)]: Python evaluates [idx2(i, j)], then
    [idx2(k, l)], then the outer call. *)
Definition idx4_memo (i j k l : nat) (cache : idx2_cache) : nat * idx2_cache :=
  let '(ij, cache) := idx2_memo i j cache in
  let '(kl, cache) := idx2_memo k l cache in
  idx2_memo ij kl cache.

(** Every stored value is the one [idx2] computes. *)
Definition cache_sound (cache : idx2_cache) : Prop :=
  forall i j v, cache !! (i, j) = Some v -> v = RHF.idx2 i j.


(** The states at the head of the [while] loop of the restricted cell. *)
Inductive restricted_reachable {lib : NumLib} (cfg : config) (m : RHF.molecule)
  : RHF.state -> Prop :=
  | restricted_reach_initial :
      restricted_reachable cfg m (RHF.initial_state m)
  | restricted_reach_iteration (st : RHF.state) :
      restricted_reachable cfg m st ->
      RHF.loop_guard st = true ->
      restricted_reachable cfg m (RHF.iteration cfg m st).

(** [body] maps arrays of shape [(n, n)] to arrays of that shape, writes
    [f a b] into the entries selected by [sel] and leaves the others. *)
Definition writes (n : nat) (body : matrix -> matrix)
    (sel : nat -> nat -> bool) (f : nat -> nat -> Qc) : Prop :=
  forall G, square n G ->
    square n (body G) /\
    forall a b, mget (body G) a b = if sel a b then f a b else mget G a b.

(** The entries of the Pulay matrix of [len] residuals, written out. *)
Definition pulay_entry (diis_res : list matrix) (len a b : nat) : Qc :=
  if (a <? len)%nat && (b <? len)%nat
  then einsum_ij_ij (mat_at diis_res a) (mat_at diis_res b)
  else if ((a =? len)%nat && (b <? len)%nat) || ((a <? len)%nat && (b =? len)%nat)
       then - 1
       else 0.

(** Every entry of the array is [0]. *)
Definition all_zero (M : matrix) : Prop := Forall (Forall (fun x => x = 0)) M.

(** The coefficient vector [c] with weight [1] moved from entry [q] to
    entry [p]. *)
Definition move_weight (c : vector) (p q : nat) : vector :=
  <[q := vget c q - 1]> (<[p := vget c p + 1]> c).

(** * Properties *)

(** ** Loops *)

Lemma for_range_S {X : Type} (n : nat) (body : nat -> X -> X) (x : X) :
  for_range (Datatypes.S n) body x = body n (for_range n body x).
Proof.
  unfold for_range. rewrite seq_S, fold_left_app. reflexivity.
Qed.

Lemma for_range_ext {X : Type} (n : nat) (f g : nat -> X -> X) (x : X) :
  (forall i y, (i < n)%nat -> f i y = g i y) ->
  for_range n f x = for_range n g x.
Proof.
  induction n as [|n IH]; intros Hfg; [reflexivity|].
  rewrite !for_range_S, IH by (intros; apply Hfg; lia).
  apply Hfg. lia.
Qed.

(** A loop over a pair whose body treats the components separately is a
    pair of loops. *)
Lemma for_range_pair {X Y : Type} (n : nat)
    (f : nat -> X -> X) (g : nat -> Y -> Y) (x : X) (y : Y) :
  for_range n (fun i p => (f i (fst p), g i (snd p))) (x, y)
  = (for_range n f x, for_range n g y).
Proof.
  induction n as [|n IH]; [reflexivity|].
  rewrite !for_range_S, IH. reflexivity.
Qed.

(** ** Sums *)

Lemma qsum_ext (n : nat) (f g : nat -> Qc) :
  (forall k, (k < n)%nat -> f k = g k) -> qsum n f = qsum n g.
Proof.
  induction n as [|n IH]; intros Hfg; simpl; [reflexivity|].
  rewrite IH, Hfg by (intros; try apply Hfg; lia). reflexivity.
Qed.

Lemma qsum_zero (n : nat) : qsum n (fun _ => 0) = 0.
Proof. induction n as [|n IH]; simpl; [reflexivity|]. rewrite IH. ring. Qed.

Lemma qsum_plus (n : nat) (f g : nat -> Qc) :
  qsum n (fun k => f k + g k) = qsum n f + qsum n g.
Proof. induction n as [|n IH]; simpl; [ring|]. rewrite IH. ring. Qed.

Lemma qsum_scale (n : nat) (c : Qc) (f : nat -> Qc) :
  qsum n (fun k => c * f k) = c * qsum n f.
Proof. induction n as [|n IH]; simpl; [ring|]. rewrite IH. ring. Qed.

(** Exchange of two finite sums. *)
Lemma qsum_swap (n m : nat) (f : nat -> nat -> Qc) :
  qsum n (fun k => qsum m (fun l => f k l))
  = qsum m (fun l => qsum n (fun k => f k l)).
Proof.
  induction n as [|n IH]; simpl.
  - symmetry. apply qsum_zero.
  - rewrite IH, <- qsum_plus. reflexivity.
Qed.

(** A sum that selects one index. *)
Lemma qsum_select (n a : nat) (f : nat -> Qc) :
  qsum n (fun k => if bool_decide (a = k) then f k else 0)
  = if bool_decide (a < n)%nat then f a else 0.
Proof.
  induction n as [|n IH]; cbn [qsum].
  - case_bool_decide; [lia | reflexivity].
  - rewrite IH. repeat case_bool_decide; subst; try lia; ring.
Qed.

(** ** Arrays *)

Lemma square_zeros (n : nat) : square n (zeros n n).
Proof.
  split.
  - apply length_replicate.
  - apply Forall_replicate, length_replicate.
Qed.

Lemma mget_zeros (r c i j : nat) : mget (zeros r c) i j = 0.
Proof.
  unfold mget, zeros, vget.
  destruct (replicate r (replicate c 0) !! i) as [row|] eqn:E; [|reflexivity].
  apply lookup_replicate in E as [-> _].
  destruct (replicate c 0 !! j) as [x|] eqn:E'; [|reflexivity].
  apply lookup_replicate in E' as [-> _]. reflexivity.
Qed.

Lemma square_row (n : nat) (M : matrix) (i : nat) (row : vector) :
  square n M -> M !! i = Some row -> length row = n.
Proof.
  intros [_ HM] Hi. rewrite Forall_lookup in HM. exact (HM i row Hi).
Qed.

Lemma square_madd (n : nat) (M : matrix) (i j : nat) (v : Qc) :
  square n M -> square n (madd M i j v).
Proof.
  intros [Hlen Hrows]. unfold madd. split.
  - rewrite length_alter. exact Hlen.
  - apply Forall_alter; [exact Hrows|].
    intros row _ Hrow. rewrite length_alter. exact Hrow.
Qed.

Lemma mget_madd (n : nat) (M : matrix) (i j : nat) (v : Qc) (a b : nat) :
  square n M -> (i < n)%nat -> (j < n)%nat ->
  mget (madd M i j v) a b
  = mget M a b + (if bool_decide (a = i /\ b = j) then v else 0).
Proof.
  intros HM Hi Hj. unfold mget, madd.
  destruct (decide (a = i)) as [->|Hai].
  - destruct (lookup_lt_is_Some_2 M i) as [row Hrow]; [destruct HM; lia|].
    rewrite list_lookup_alter_eq, Hrow. cbn.
    pose proof (square_row n M i row HM Hrow) as Hlen.
    unfold vget. destruct (decide (b = j)) as [->|Hbj].
    + destruct (lookup_lt_is_Some_2 row j) as [x Hx]; [lia|].
      rewrite list_lookup_alter_eq, Hx. cbn.
      case_bool_decide as Hd; [reflexivity | tauto].
    + rewrite list_lookup_alter_ne by congruence.
      case_bool_decide as Hd; [tauto | ring].
  - rewrite list_lookup_alter_ne by congruence.
    case_bool_decide as Hd; [tauto | ring].
Qed.

Lemma adds_madd (n i j : nat) (v : Qc) :
  (i < n)%nat -> (j < n)%nat ->
  adds n (fun G => madd G i j v)
    (fun a b => if bool_decide (a = i /\ b = j) then v else 0).
Proof.
  intros Hi Hj G HG. split.
  - apply square_madd, HG.
  - intros a b. apply (mget_madd n); assumption.
Qed.

Lemma adds_ext (n : nat) (body : matrix -> matrix) (d d' : nat -> nat -> Qc) :
  (forall a b, d a b = d' a b) -> adds n body d -> adds n body d'.
Proof.
  intros Hd Hb G HG. destruct (Hb G HG) as [Hsq Hget]. split; [exact Hsq|].
  intros a b. rewrite Hget, Hd. reflexivity.
Qed.

(** The loop rule: a loop of adding bodies adds the sum of what they add. *)
Lemma adds_for_range (n m : nat) (body : nat -> matrix -> matrix)
    (delta : nat -> nat -> nat -> Qc) :
  (forall k, (k < m)%nat -> adds n (body k) (delta k)) ->
  adds n (for_range m body) (fun a b => qsum m (fun k => delta k a b)).
Proof.
  induction m as [|m IH]; intros Hbody G HG.
  - split; [exact HG|]. intros a b. cbn. ring.
  - rewrite for_range_S.
    destruct (IH (fun k Hk => Hbody k (Nat.lt_lt_succ_r _ _ Hk)) G HG)
      as [Hsq Hget].
    destruct (Hbody m (Nat.lt_succ_diag_r m) _ Hsq) as [Hsq' Hget'].
    split; [exact Hsq'|].
    intros a b. rewrite Hget', Hget. cbn [qsum]. ring.
Qed.

Lemma qsum_guard (n : nat) (c : bool) (f : nat -> Qc) :
  qsum n (fun k => if c then f k else 0) = if c then qsum n f else 0.
Proof. destruct c; [reflexivity | apply qsum_zero]. Qed.

Lemma qsum_select2 (n a b : nat) (f : nat -> nat -> Qc) :
  qsum n (fun i => qsum n (fun j =>
    if bool_decide (a = i /\ b = j) then f i j else 0))
  = inside n a b (f a b).
Proof.
  unfold inside.
  rewrite (qsum_ext n _ (fun i => if bool_decide (a = i)
             then (if bool_decide (b < n)%nat then f i b else 0) else 0)).
  - rewrite qsum_select. repeat case_bool_decide; reflexivity.
  - intros i _. rewrite <- qsum_select. case_bool_decide as Hai.
    + apply qsum_ext. intros j _. repeat case_bool_decide; tauto || reflexivity.
    + transitivity (qsum n (fun _ => 0)); [|apply qsum_zero].
      apply qsum_ext. intros j _.
      repeat case_bool_decide; tauto || reflexivity.
Qed.

(** Two nested loops with the target entry fixed. *)
Lemma adds_accumulate (n m m' i j : nat) (t : nat -> nat -> Qc) :
  (i < n)%nat -> (j < n)%nat ->
  adds n (for_range m (fun k => for_range m' (fun l G => madd G i j (t k l))))
    (fun a b => if bool_decide (a = i /\ b = j)
                then qsum m (fun k => qsum m' (fun l => t k l)) else 0).
Proof.
  intros Hi Hj.
  eapply adds_ext; [|apply adds_for_range; intros k _;
                     apply adds_for_range; intros l _;
                     apply (adds_madd n i j (t k l) Hi Hj)].
  intros a b. cbn beta. rewrite <- qsum_guard. apply qsum_ext. intros k _.
  apply qsum_guard.
Qed.

(** Two nested loops over the target entry. *)
Lemma adds_entries (n : nat) (body : nat -> nat -> matrix -> matrix)
    (f : nat -> nat -> Qc) :
  (forall i j, (i < n)%nat -> (j < n)%nat ->
     adds n (body i j)
       (fun a b => if bool_decide (a = i /\ b = j) then f i j else 0)) ->
  adds n (for_range n (fun i => for_range n (fun j => body i j)))
    (fun a b => inside n a b (f a b)).
Proof.
  intros Hbody.
  eapply adds_ext; [|apply adds_for_range; intros i Hi;
                     apply adds_for_range; intros j Hj;
                     apply (Hbody i j Hi Hj)].
  intros a b. cbn beta. apply qsum_select2.
Qed.

Lemma adds_from_zeros (n : nat) (body : matrix -> matrix) (d : nat -> nat -> Qc) :
  adds n body d ->
  square n (body (zeros n n)) /\
  forall a b, mget (body (zeros n n)) a b = d a b.
Proof.
  intros Hb. destruct (Hb _ (square_zeros n)) as [Hsq Hget].
  split; [exact Hsq|]. intros a b. rewrite Hget, mget_zeros. ring.
Qed.

(** *** The contraction loops *)

Lemma contraction_spec (n : nat) (D : matrix) (t : nat -> nat -> nat -> nat -> Qc) :
  square n (contraction n D t) /\
  forall a b, mget (contraction n D t) a b
              = inside n a b (contraction_formula n D t a b).
Proof.
  apply (adds_from_zeros n
    (for_range n (fun i => for_range n (fun j => for_range n (fun k =>
       for_range n (fun l G => madd G i j (mget D k l * t i j k l))))))).
  apply (adds_entries n
    (fun i j => for_range n (fun k =>
       for_range n (fun l G => madd G i j (mget D k l * t i j k l))))
    (contraction_formula n D t)).
  intros i j Hi Hj.
  apply (adds_accumulate n n n i j (fun k l => mget D k l * t i j k l) Hi Hj).
Qed.

(** *** The density loops *)

Lemma adds_density_entry (n N : nat) (C : matrix) (i j : nat) :
  (i < n)%nat -> (j < n)%nat ->
  adds n (density_entry N C i j)
    (fun a b => if bool_decide (a = i /\ b = j)
                then density_formula N C i j else 0).
Proof.
  intros Hi Hj. unfold density_entry, density_formula.
  eapply adds_ext; [|apply adds_for_range; intros k _;
                     apply (adds_madd n i j (mget C i k * mget C j k) Hi Hj)].
  intros a b. cbn beta. apply qsum_guard.
Qed.

Lemma build_density_spec (n N : nat) (C : matrix) :
  square n (RHF.build_density n N C) /\
  forall a b, mget (RHF.build_density n N C) a b
              = inside n a b (density_formula N C a b).
Proof.
  apply (adds_from_zeros n
    (for_range n (fun i => for_range n (fun j D => density_entry N C i j D)))).
  apply (adds_entries n (fun i j => density_entry N C i j)
           (density_formula N C)).
  intros i j. apply adds_density_entry.
Qed.

(** *** The two-channel loops are two one-channel loops *)

Lemma for_range_split {X Y : Type} (n : nat) (body : nat -> X * Y -> X * Y)
    (f : nat -> X -> X) (g : nat -> Y -> Y) (p : X * Y) :
  (forall i q, (i < n)%nat -> body i q = (f i (fst q), g i (snd q))) ->
  for_range n body p = (for_range n f (fst p), for_range n g (snd p)).
Proof.
  intros Hbody. destruct p as [x y].
  rewrite <- for_range_pair. apply for_range_ext. exact Hbody.
Qed.

Lemma form_G_split (m : UHF.molecule) (Da Db : matrix) :
  UHF.form_G m Da Db
  = (contraction (UHF.num_ao m) Da (coulomb_exchange (UHF.eri m)),
     contraction (UHF.num_ao m) Db (coulomb_exchange (UHF.eri m))).
Proof.
  unfold UHF.form_G, contraction.
  apply (for_range_split _ _
    (fun i => for_range _ (fun j => for_range _ (fun k => for_range _ (fun l G =>
       madd G i j (mget Da k l * coulomb_exchange (UHF.eri m) i j k l)))))
    (fun i => for_range _ (fun j => for_range _ (fun k => for_range _ (fun l G =>
       madd G i j (mget Db k l * coulomb_exchange (UHF.eri m) i j k l)))))).
  intros i p _.
  apply (for_range_split _ _
    (fun j => for_range _ (fun k => for_range _ (fun l G =>
       madd G i j (mget Da k l * coulomb_exchange (UHF.eri m) i j k l))))
    (fun j => for_range _ (fun k => for_range _ (fun l G =>
       madd G i j (mget Db k l * coulomb_exchange (UHF.eri m) i j k l))))).
  intros j q _.
  apply (for_range_split _ _
    (fun k => for_range _ (fun l G =>
       madd G i j (mget Da k l * coulomb_exchange (UHF.eri m) i j k l)))
    (fun k => for_range _ (fun l G =>
       madd G i j (mget Db k l * coulomb_exchange (UHF.eri m) i j k l)))).
  intros k r _.
  apply (for_range_split _ _
    (fun l G => madd G i j (mget Da k l * coulomb_exchange (UHF.eri m) i j k l))
    (fun l G => madd G i j (mget Db k l * coulomb_exchange (UHF.eri m) i j k l))).
  intros l [Ga Gb] _. reflexivity.
Qed.

Lemma build_densities_split (n Na Nb : nat) (Ca Cb : matrix) :
  UHF.build_densities n Na Nb Ca Cb
  = (RHF.build_density n Na Ca, RHF.build_density n Nb Cb).
Proof.
  unfold UHF.build_densities, RHF.build_density.
  apply (for_range_split _ _
    (fun i => for_range n (fun j D => density_entry Na Ca i j D))
    (fun i => for_range n (fun j D => density_entry Nb Cb i j D))).
  intros i p _.
  apply (for_range_split _ _
    (fun j D => density_entry Na Ca i j D)
    (fun j D => density_entry Nb Cb i j D)).
  intros j [Da Db] _. reflexivity.
Qed.

Lemma restricted_form_G (m : RHF.molecule) (D : matrix) :
  RHF.form_G m D
  = contraction (RHF.num_ao m) D
      (fun i j k l => two * RHF.eri m (RHF.idx4 i j k l)
                      - RHF.eri m (RHF.idx4 i k j l)).
Proof. reflexivity. Qed.

(** *** Elementwise operations *)

Lemma square_map2 (n : nat) (f : Qc -> Qc -> Qc) (A B : matrix) :
  square n A -> square n B -> square n (map2 f A B).
Proof.
  intros [HA HAr] [HB HBr]. unfold map2. split.
  - rewrite length_zip_with. lia.
  - apply Forall_lookup. intros i row Hrow.
    apply lookup_zip_with_Some in Hrow as (ra & rb & -> & Hra & Hrb).
    rewrite Forall_lookup in HAr, HBr.
    rewrite length_zip_with, (HAr _ _ Hra), (HBr _ _ Hrb). lia.
Qed.

Lemma mget_map2 (n : nat) (f : Qc -> Qc -> Qc) (A B : matrix) (a b : nat) :
  square n A -> square n B -> f 0 0 = 0 ->
  mget (map2 f A B) a b = f (mget A a b) (mget B a b).
Proof.
  intros HA HB Hf. unfold mget, map2, vget.
  rewrite lookup_zip_with.
  destruct (A !! a) as [ra|] eqn:Ea; cbn.
  - destruct (B !! a) as [rb|] eqn:Eb; cbn.
    + rewrite lookup_zip_with.
      pose proof (square_row n A a ra HA Ea) as Hla.
      pose proof (square_row n B a rb HB Eb) as Hlb.
      destruct (ra !! b) as [x|] eqn:Ex; cbn.
      * destruct (rb !! b) as [y|] eqn:Ey; cbn; [reflexivity|].
        apply lookup_lt_Some in Ex. apply lookup_ge_None in Ey. lia.
      * destruct (rb !! b) as [y|] eqn:Ey; cbn; [|symmetry; exact Hf].
        apply lookup_lt_Some in Ey. apply lookup_ge_None in Ex. lia.
    + apply lookup_lt_Some in Ea. apply lookup_ge_None in Eb.
      destruct HA, HB. lia.
  - destruct (B !! a) as [rb|] eqn:Eb; cbn; [|symmetry; exact Hf].
    apply lookup_lt_Some in Eb. apply lookup_ge_None in Ea.
    destruct HA, HB. lia.
Qed.

Lemma mget_mplus (n : nat) (A B : matrix) (a b : nat) :
  square n A -> square n B -> mget (mplus A B) a b = mget A a b + mget B a b.
Proof. intros HA HB. apply (mget_map2 n); [assumption..|ring]. Qed.

Lemma mget_np_multiply (n : nat) (A B : matrix) (a b : nat) :
  square n A -> square n B ->
  mget (np_multiply A B) a b = mget A a b * mget B a b.
Proof. intros HA HB. apply (mget_map2 n); [assumption..|ring]. Qed.

Lemma mget_mscale (c : Qc) (A : matrix) (a b : nat) :
  mget (mscale c A) a b = c * mget A a b.
Proof.
  unfold mget, mscale, vget. rewrite list_lookup_fmap.
  destruct (A !! a) as [row|]; cbn; [|ring].
  rewrite list_lookup_fmap. destruct (row !! b); cbn; ring.
Qed.

Lemma square_mscale (n : nat) (c : Qc) (A : matrix) :
  square n A -> square n (mscale c A).
Proof.
  intros [HA HAr]. unfold mscale. split.
  - rewrite length_map. exact HA.
  - apply Forall_fmap. eapply Forall_impl; [exact HAr|].
    intros row Hrow. cbn. rewrite length_map. exact Hrow.
Qed.

(** Arrays of one square shape with the same entries are the same array. *)
Lemma matrix_ext (n : nat) (A B : matrix) :
  square n A -> square n B ->
  (forall a b, (a < n)%nat -> (b < n)%nat -> mget A a b = mget B a b) ->
  A = B.
Proof.
  intros HA HB Hget. apply list_eq. intros a.
  destruct (A !! a) as [ra|] eqn:Ea, (B !! a) as [rb|] eqn:Eb.
  - f_equal. apply list_eq. intros b.
    pose proof (square_row n A a ra HA Ea) as Hla.
    pose proof (square_row n B a rb HB Eb) as Hlb.
    pose proof (lookup_lt_Some _ _ _ Ea) as Han.
    destruct HA as [HlA _].
    destruct (ra !! b) as [x|] eqn:Ex, (rb !! b) as [y|] eqn:Ey.
    + f_equal. specialize (Hget a b). unfold mget, vget in Hget.
      rewrite Ea, Eb, Ex, Ey in Hget. apply Hget; [lia|].
      apply lookup_lt_Some in Ex. lia.
    + apply lookup_lt_Some in Ex. apply lookup_ge_None in Ey. lia.
    + apply lookup_lt_Some in Ey. apply lookup_ge_None in Ex. lia.
    + reflexivity.
  - apply lookup_lt_Some in Ea. apply lookup_ge_None in Eb.
    destruct HA, HB. lia.
  - apply lookup_lt_Some in Eb. apply lookup_ge_None in Ea.
    destruct HA, HB. lia.
  - reflexivity.
Qed.

(** ** Symmetry of densities and Fock matrices *)

Lemma for_range_ind {X : Type} (P : X -> Prop) (n : nat)
    (body : nat -> X -> X) (x : X) :
  P x -> (forall i y, (i < n)%nat -> P y -> P (body i y)) ->
  P (for_range n body x).
Proof.
  intros Hx Hstep. induction n as [|n IH]; [exact Hx|].
  rewrite for_range_S. apply Hstep; [lia|].
  apply IH. intros i y Hi. apply Hstep. lia.
Qed.

Lemma inside_swap (n a b : nat) (x y : Qc) :
  x = y -> inside n a b x = inside n b a y.
Proof. intros ->. unfold inside. rewrite andb_comm. reflexivity. Qed.

Lemma symmetric_nil : symmetric [].
Proof. intros i j. reflexivity. Qed.

Lemma build_density_symmetric (n N : nat) (C : matrix) :
  symmetric (RHF.build_density n N C).
Proof.
  intros i j. destruct (build_density_spec n N C) as [_ Hget].
  rewrite !Hget. apply inside_swap. unfold density_formula.
  apply qsum_ext. intros k _. ring.
Qed.

Lemma contraction_symmetric (n : nat) (D : matrix)
    (t : nat -> nat -> nat -> nat -> Qc) :
  symmetric D ->
  (forall i j k l, t j i k l = t i j l k) ->
  symmetric (contraction n D t).
Proof.
  intros HD Ht i j. destruct (contraction_spec n D t) as [_ Hget].
  rewrite !Hget. apply inside_swap. unfold contraction_formula.
  rewrite qsum_swap. apply qsum_ext. intros k _. apply qsum_ext. intros l _.
  rewrite (HD l k), Ht. reflexivity.
Qed.

Lemma coulomb_exchange_flip (e : nat -> nat -> nat -> nat -> Qc) :
  eightfold e ->
  forall i j k l, coulomb_exchange e j i k l = coulomb_exchange e i j l k.
Proof.
  intros He i j k l. unfold coulomb_exchange.
  destruct (He j i k l) as [H1 _]. destruct (He i j k l) as [_ [H2 _]].
  destruct (He j k i l) as [_ [_ H3]].
  rewrite H1, H2, H3. reflexivity.
Qed.

Lemma mplus_symmetric (n : nat) (A B : matrix) :
  square n A -> square n B -> symmetric A -> symmetric B ->
  symmetric (mplus A B).
Proof.
  intros HA HB SA SB i j.
  rewrite !(mget_mplus n) by assumption. rewrite (SA i j), (SB i j). reflexivity.
Qed.

Lemma build_fock_split (m : UHF.molecule) (Da Db : matrix) :
  UHF.build_fock m Da Db
  = (mplus (UHF.H m)
       (contraction (UHF.num_ao m) Da (coulomb_exchange (UHF.eri m))),
     mplus (UHF.H m)
       (contraction (UHF.num_ao m) Db (coulomb_exchange (UHF.eri m)))).
Proof. unfold UHF.build_fock. rewrite form_G_split. reflexivity. Qed.

(** One channel of the Fock builder. *)
Lemma fock_channel_symmetric (m : UHF.molecule) (D : matrix) :
  square (UHF.num_ao m) (UHF.H m) -> symmetric (UHF.H m) ->
  eightfold (UHF.eri m) -> symmetric D ->
  square (UHF.num_ao m)
    (mplus (UHF.H m) (contraction (UHF.num_ao m) D (coulomb_exchange (UHF.eri m))))
  /\ symmetric
    (mplus (UHF.H m) (contraction (UHF.num_ao m) D (coulomb_exchange (UHF.eri m)))).
Proof.
  intros HH SH He SD.
  destruct (contraction_spec (UHF.num_ao m) D (coulomb_exchange (UHF.eri m)))
    as [Hsq _].
  split.
  - apply square_map2; assumption.
  - apply (mplus_symmetric (UHF.num_ao m)); try assumption.
    apply contraction_symmetric; [assumption|].
    apply coulomb_exchange_flip. assumption.
Qed.

Lemma mget_zeros_like (M : matrix) (a b : nat) : mget (zeros_like M) a b = 0.
Proof.
  unfold mget, zeros_like, vget. rewrite list_lookup_fmap.
  destruct (M !! a) as [row|]; cbn; [|reflexivity].
  destruct (replicate (length row) 0 !! b) as [x|] eqn:E; [|reflexivity].
  apply lookup_replicate in E as [-> _]. reflexivity.
Qed.

Lemma square_zeros_like (n : nat) (M : matrix) :
  square n M -> square n (zeros_like M).
Proof.
  intros [HM HMr]. unfold zeros_like. split.
  - rewrite length_map. exact HM.
  - apply Forall_fmap. eapply Forall_impl; [exact HMr|].
    intros row Hrow. cbn. rewrite length_replicate. exact Hrow.
Qed.

Lemma mat_at_cases (P : matrix -> Prop) (l : list matrix) (x : nat) :
  Forall P l -> P (mat_at l x) \/ mat_at l x = [].
Proof.
  intros Hl. unfold mat_at. destruct (l !! x) as [M|] eqn:E; cbn.
  - left. rewrite Forall_lookup in Hl. exact (Hl x M E).
  - right. reflexivity.
Qed.

Lemma map2_nil_r (f : Qc -> Qc -> Qc) (A : matrix) : map2 f A [] = [].
Proof. unfold map2. destruct A; reflexivity. Qed.

(** A linear combination of symmetric matrices is symmetric. *)
Lemma diis_symmetric {lib : NumLib} (n : nat) (F_list diis_res : list matrix)
    (F : matrix) :
  Forall (fun M => square n M /\ symmetric M) F_list ->
  UHF.diis F_list diis_res = Ok F ->
  symmetric F.
Proof.
  intros Hl. unfold UHF.diis.
  destruct (linalg_solve _ _) as [cn|]; [|discriminate].
  intros [= <-].
  cut (let R := for_range (length cn - 1)
                  (fun x F_diis => mplus F_diis (mscale (vget cn x) (mat_at F_list x)))
                  (zeros_like (mat_at F_list 0)) in
       symmetric R /\ (square n R \/ R = [])); [intros HR; apply HR|].
  apply for_range_ind.
  - destruct (mat_at_cases _ F_list 0%nat Hl) as [[Hsq _] | ->].
    + split; [|left; apply square_zeros_like, Hsq].
      intros i j. rewrite !mget_zeros_like. reflexivity.
    + split; [apply symmetric_nil | right; reflexivity].
  - intros x R _ [HRs [HRq | ->]].
    + destruct (mat_at_cases _ F_list x Hl) as [[Hsq Hsym] | ->].
      * split; [|left; apply square_map2; [assumption | apply square_mscale, Hsq]].
        apply (mplus_symmetric n); try assumption.
        -- apply square_mscale, Hsq.
        -- intros i j. rewrite !mget_mscale, (Hsym i j). reflexivity.
      * unfold mplus, mscale. cbn [map]. rewrite map2_nil_r.
        split; [apply symmetric_nil | right; reflexivity].
    + split; [apply symmetric_nil | right; reflexivity].
Qed.

(** ** One pass of the unrestricted loop, field by field *)

Lemma Ok_inj {X : Type} (x y : X) : Ok x = Ok y -> x = y.
Proof.
  intros Heq.
  exact (f_equal (fun r => match r with Ok z => z | LinAlgError => x end) Heq).
Qed.

Section UnrestrictedStep.
Context {lib : NumLib}.
Variable cfg : config.
Variable m : UHF.molecule.

Lemma iteration_inv (st st' : UHF.state) :
  UHF.iteration cfg m st = Ok st' ->
  let F0 := UHF.build_fock m (UHF.D_alpha st) (UHF.D_beta st) in
  let E' := UHF.electronic_energy m (UHF.D_total st) (UHF.D_alpha st)
              (UHF.D_beta st) (fst F0) (snd F0) in
  let Fl_a := UHF.F_list_alpha st ++ fst F0 :: nil in
  let Fl_b := UHF.F_list_beta st ++ snd F0 :: nil in
  let R_a := UHF.DIIS_resid_alpha st
             ++ UHF.diis_gradient m (fst F0) (UHF.D_alpha st) :: nil in
  let R_b := UHF.DIIS_resid_beta st
             ++ UHF.diis_gradient m (snd F0) (UHF.D_beta st) :: nil in
  let test := UHF.convergence_test cfg (UHF.iteration_E_diff st')
                (UHF.iteration_rmsc_dm st') in
  UHF.extrapolate (Datatypes.S (UHF.iteration_num st)) (fst F0) (snd F0)
    Fl_a Fl_b R_a R_b = Ok (UHF.F_alpha st', UHF.F_beta st') /\
  UHF.iteration_num st' = Datatypes.S (UHF.iteration_num st) /\
  UHF.E_elec st' = E' /\
  UHF.iteration_E_diff st' = Qcabs (E' - UHF.E_elec st) /\
  UHF.iteration_rmsc_dm st'
    = np_sqrt (np_sum (msquare (mminus (UHF.D_total st') (UHF.D_total st)))) /\
  UHF.converged st' = (if test then true else UHF.converged st) /\
  UHF.exceeded_iterations st'
    = (if (Datatypes.S (UHF.iteration_num st) =? iteration_max cfg)%nat
       then true else UHF.exceeded_iterations st) /\
  UHF.E_total st' = (if test then E' + UHF.E_nuc m else UHF.E_total st) /\
  UHF.C_alpha st' = snd (eigh (UHF.F_alpha st') (UHF.S m)) /\
  UHF.C_beta st' = snd (eigh (UHF.F_beta st') (UHF.S m)) /\
  UHF.D_alpha st'
    = RHF.build_density (UHF.num_ao m) (UHF.num_elec_alpha m) (UHF.C_alpha st') /\
  UHF.D_beta st'
    = RHF.build_density (UHF.num_ao m) (UHF.num_elec_beta m) (UHF.C_beta st') /\
  UHF.D_total st' = mplus (UHF.D_alpha st') (UHF.D_beta st') /\
  UHF.F_list_alpha st' = Fl_a /\
  UHF.F_list_beta st' = Fl_b /\
  UHF.DIIS_resid_alpha st' = R_a /\
  UHF.DIIS_resid_beta st' = R_b.
Proof.
  unfold UHF.iteration.
  destruct (UHF.build_fock m (UHF.D_alpha st) (UHF.D_beta st)) as [Fa0 Fb0].
  cbn [fst snd].
  destruct (UHF.extrapolate _ _ _ _ _ _ _) as [[Fa Fb]|]; [|discriminate].
  cbn [bind].
  destruct (eigh Fa (UHF.S m)) as [Ea Ca] eqn:HCa.
  destruct (eigh Fb (UHF.S m)) as [Eb Cb] eqn:HCb.
  rewrite build_densities_split.
  intros Hst. apply Ok_inj in Hst. rewrite <- Hst.
  cbn [UHF.iteration_num UHF.E_total UHF.E_elec UHF.iteration_E_diff
       UHF.iteration_rmsc_dm UHF.converged UHF.exceeded_iterations
       UHF.D_alpha UHF.D_beta UHF.D_total UHF.F_alpha UHF.F_beta
       UHF.C_alpha UHF.C_beta UHF.F_list_alpha UHF.F_list_beta
       UHF.DIIS_resid_alpha UHF.DIIS_resid_beta].
  rewrite HCa, HCb. cbn [snd]. repeat split.
Qed.

End UnrestrictedStep.

Lemma extrapolate_inv {lib : NumLib} (k : nat) (Fa0 Fb0 Fa Fb : matrix)
    (Fl_a Fl_b R_a R_b : list matrix) :
  UHF.extrapolate k Fa0 Fb0 Fl_a Fl_b R_a R_b = Ok (Fa, Fb) ->
  ((k < 2)%nat /\ Fa = Fa0 /\ Fb = Fb0) \/
  ((2 <= k)%nat /\ UHF.diis Fl_a R_a = Ok Fa /\ UHF.diis Fl_b R_b = Ok Fb).
Proof.
  unfold UHF.extrapolate. destruct (Nat.leb_spec 2 k) as [Hk|Hk].
  - destruct (UHF.diis Fl_a R_a) as [Fa'|]; [|discriminate].
    destruct (UHF.diis Fl_b R_b) as [Fb'|]; [|discriminate].
    cbn. intros [= <- <-]. right. auto.
  - intros [= <- <-]. left. auto.
Qed.

Section SymmetryInvariant.
Context {lib : NumLib}.
Variable cfg : config.
Variable m : UHF.molecule.
Hypothesis H_square : square (UHF.num_ao m) (UHF.H m).
Hypothesis H_symmetric : symmetric (UHF.H m).
Hypothesis eri_eightfold : eightfold (UHF.eri m).

Lemma build_density_invariant (N : nat) (C : matrix) :
  square (UHF.num_ao m) (RHF.build_density (UHF.num_ao m) N C) /\
  symmetric (RHF.build_density (UHF.num_ao m) N C).
Proof.
  split; [exact (proj1 (build_density_spec _ N C)) | apply build_density_symmetric].
Qed.

Lemma symmetric_state_initial :
  symmetric_state (UHF.num_ao m) (UHF.initial_state m).
Proof.
  unfold UHF.initial_state.
  destruct (eigh (UHF.H m) (UHF.S m)) as [E C].
  rewrite build_densities_split. unfold symmetric_state. cbn.
  pose proof (build_density_invariant (UHF.num_elec_alpha m) C) as [Sa Ya].
  pose proof (build_density_invariant (UHF.num_elec_beta m) C) as [Sb Yb].
  refine (conj (conj Sa Ya) (conj (conj Sb Yb)
            (conj _ (conj symmetric_nil (conj symmetric_nil
               (conj (Forall_nil_2 _) (Forall_nil_2 _))))))).
  apply (mplus_symmetric (UHF.num_ao m)); assumption.
Qed.

Lemma symmetric_state_step (st st' : UHF.state) :
  symmetric_state (UHF.num_ao m) st ->
  UHF.iteration cfg m st = Ok st' ->
  symmetric_state (UHF.num_ao m) st'.
Proof.
  intros (Da & Db & Dt & Fa & Fb & La & Lb) Hstep.
  apply iteration_inv in Hstep. cbv zeta in Hstep.
  rewrite build_fock_split in Hstep. cbn [fst snd] in Hstep.
  destruct Hstep as (Hex & _ & _ & _ & _ & _ & _ & _ & _ & _ &
                     HDa & HDb & HDt & HLa & HLb & _ & _).
  destruct (fock_channel_symmetric m (UHF.D_alpha st)
              H_square H_symmetric eri_eightfold (proj2 Da)) as [Sa0 Ya0].
  destruct (fock_channel_symmetric m (UHF.D_beta st)
              H_square H_symmetric eri_eightfold (proj2 Db)) as [Sb0 Yb0].
  assert (La' : Forall (fun M => square (UHF.num_ao m) M /\ symmetric M)
                  (UHF.F_list_alpha st')).
  { rewrite HLa. apply Forall_app. split; [exact La|]. apply Forall_singleton. split; assumption. }
  assert (Lb' : Forall (fun M => square (UHF.num_ao m) M /\ symmetric M)
                  (UHF.F_list_beta st')).
  { rewrite HLb. apply Forall_app. split; [exact Lb|]. apply Forall_singleton. split; assumption. }
  unfold symmetric_state. rewrite HDt, HDa, HDb.
  pose proof (build_density_invariant (UHF.num_elec_alpha m) (UHF.C_alpha st'))
    as [Sa Ya].
  pose proof (build_density_invariant (UHF.num_elec_beta m) (UHF.C_beta st'))
    as [Sb Yb].
  refine (conj (conj Sa Ya) (conj (conj Sb Yb)
            (conj _ (conj _ (conj _ (conj La' Lb')))))).
  - apply (mplus_symmetric (UHF.num_ao m)); assumption.
  - apply extrapolate_inv in Hex as [(_ & -> & _) | (_ & Hd & _)]; [exact Ya0|].
    rewrite <- HLa in Hd. exact (diis_symmetric _ _ _ _ La' Hd).
  - apply extrapolate_inv in Hex as [(_ & _ & ->) | (_ & _ & Hd)]; [exact Yb0|].
    rewrite <- HLb in Hd. exact (diis_symmetric _ _ _ _ Lb' Hd).
Qed.

Lemma symmetric_state_reachable (st : UHF.state) :
  UHF.reachable cfg m st -> symmetric_state (UHF.num_ao m) st.
Proof.
  induction 1 as [|st st' _ IH _ Hstep].
  - apply symmetric_state_initial.
  - exact (symmetric_state_step st st' IH Hstep).
Qed.

End SymmetryInvariant.

Lemma symmetric_state_Forall (n : nat) (l : list matrix) :
  Forall (fun M => square n M /\ symmetric M) l -> Forall symmetric l.
Proof.
  intros Hl. eapply Forall_impl; [exact Hl|]. intros M [_ HM]. exact HM.
Qed.

(** C9.  Every density matrix the Density Builder produces,
    [P[i, j] = sum_{k < N_occ} C[i, k] * C[j, k]], is symmetric; every Fock
    matrix the Fock Builder produces from symmetric densities is symmetric
    when the core Hamiltonian is symmetric and the two-electron integrals
    have their 8-fold symmetry; hence the densities, the Fock matrices that
    are diagonalised and the Fock matrices kept in the DIIS lists are
    symmetric at every iteration of the unrestricted loop. *)
Theorem density_and_fock_symmetric {lib : NumLib} (cfg : config) (m : UHF.molecule) :
  square (UHF.num_ao m) (UHF.H m) ->
  symmetric (UHF.H m) ->
  eightfold (UHF.eri m) ->
  (forall n Na Nb Ca Cb,
     let P := UHF.build_densities n Na Nb Ca Cb in
     (forall i j, mget (fst P) i j = inside n i j (density_formula Na Ca i j)) /\
     (forall i j, mget (snd P) i j = inside n i j (density_formula Nb Cb i j)) /\
     symmetric (fst P) /\ symmetric (snd P)) /\
  (forall Da Db, symmetric Da -> symmetric Db ->
     symmetric (fst (UHF.build_fock m Da Db)) /\
     symmetric (snd (UHF.build_fock m Da Db))) /\
  (forall st, UHF.reachable cfg m st ->
     symmetric (UHF.D_alpha st) /\ symmetric (UHF.D_beta st) /\
     symmetric (UHF.D_total st) /\
     symmetric (UHF.F_alpha st) /\ symmetric (UHF.F_beta st) /\
     Forall symmetric (UHF.F_list_alpha st) /\
     Forall symmetric (UHF.F_list_beta st)).
Proof.
  intros HH SH He. split; [|split].
  - intros n Na Nb Ca Cb. cbv zeta. rewrite build_densities_split. cbn [fst snd].
    split; [exact (proj2 (build_density_spec n Na Ca))|].
    split; [exact (proj2 (build_density_spec n Nb Cb))|].
    split; apply build_density_symmetric.
  - intros Da Db SDa SDb. rewrite build_fock_split. cbn [fst snd].
    split; apply fock_channel_symmetric; assumption.
  - intros st Hst.
    destruct (symmetric_state_reachable cfg m HH SH He st Hst)
      as ((_ & Ya) & (_ & Yb) & Yt & Fa & Fb & La & Lb).
    repeat (split; [assumption|]).
    split; eapply symmetric_state_Forall; eassumption.
Qed.

Lemma two_site_H_square : square 2 (UHF.H two_site).
Proof. vm_compute. split; [reflexivity | repeat constructor]. Qed.

Lemma two_site_H_symmetric : symmetric (UHF.H two_site).
Proof.
  intros i j.
  destruct i as [|[|i]], j as [|[|j]]; vm_compute; reflexivity.
Qed.

Lemma two_site_eri_eightfold : eightfold (UHF.eri two_site).
Proof.
  intros i j k l. cbn [UHF.eri two_site].
  repeat split; repeat case_bool_decide; try reflexivity; exfalso; lia.
Qed.

Lemma density_and_fock_symmetric_two_site :
  (square 2 (UHF.H two_site) /\ symmetric (UHF.H two_site) /\
   eightfold (UHF.eri two_site)) /\
  forall st, UHF.reachable (lib := diagonal_basis) notebook_config two_site st ->
    symmetric (UHF.D_alpha st) /\ symmetric (UHF.F_alpha st).
Proof.
  split.
  - split; [exact two_site_H_square|].
    split; [exact two_site_H_symmetric | exact two_site_eri_eightfold].
  - intros st Hst.
    destruct (density_and_fock_symmetric (lib := diagonal_basis) notebook_config
                two_site two_site_H_square two_site_H_symmetric
                two_site_eri_eightfold) as (_ & _ & Hloop).
    destruct (Hloop st Hst) as (HD & _ & _ & HF & _).
    split; assumption.
Defined.

(** ** The unrestricted Fock builder *)

(** Closed equations between rationals are decided on the fractions. *)
Ltac qc_eval := apply Qc_is_canon; vm_compute; reflexivity.

(** What the loops of "Form G matrix" compute: each channel contracts its
    own density with [2.0 * (ij|kl) - (ik|jl)]. *)
Lemma form_G_entries (m : UHF.molecule) (Da Db : matrix) (i j : nat) :
  mget (fst (UHF.form_G m Da Db)) i j
  = inside (UHF.num_ao m) i j
      (qsum (UHF.num_ao m) (fun k => qsum (UHF.num_ao m) (fun l =>
         mget Da k l * (two * UHF.eri m i j k l - UHF.eri m i k j l)))) /\
  mget (snd (UHF.form_G m Da Db)) i j
  = inside (UHF.num_ao m) i j
      (qsum (UHF.num_ao m) (fun k => qsum (UHF.num_ao m) (fun l =>
         mget Db k l * (two * UHF.eri m i j k l - UHF.eri m i k j l)))).
Proof.
  rewrite form_G_split. cbn [fst snd].
  split; apply contraction_spec.
Qed.

(** With equal spin densities the loops and the documented formula agree. *)
Lemma G_formula_closed_shell (m : UHF.molecule) (D : matrix) (i j : nat) :
  square (UHF.num_ao m) D ->
  G_unrestricted_formula m (mplus D D) D i j
  = contraction_formula (UHF.num_ao m) D (coulomb_exchange (UHF.eri m)) i j.
Proof.
  intros HD. unfold G_unrestricted_formula, contraction_formula, coulomb_exchange, two.
  apply qsum_ext. intros k _. apply qsum_ext. intros l _.
  rewrite (mget_mplus (UHF.num_ao m)) by assumption. ring.
Qed.

(** C1.  The claim is that the unrestricted Fock builder contracts the
    Coulomb integrals [(ij|kl)] with the total density and the exchange
    integrals [(ik|jl)] with the same-spin density,
    [G_sigma = sum_kl Ptotal_kl (ij|kl) - Psigma_kl (ik|jl)].  The loops
    contract both with the same-spin density, doubled for the Coulomb part.
    For one alpha electron and no beta electron in one basis function
    ([hydrogen], with the core guess densities [[1]] and [[0]]) the loops
    give [G_alpha = 1], [G_beta = 0] and [F_alpha = -1], where the formula
    gives [G_alpha = 0], [G_beta = 1] and [F_alpha = H = -2]. *)
Theorem form_G_hydrogen_departs_from_formula :
  let st := UHF.initial_state (lib := diagonal_basis) hydrogen in
  let G := UHF.form_G hydrogen (UHF.D_alpha st) (UHF.D_beta st) in
  let F := UHF.build_fock hydrogen (UHF.D_alpha st) (UHF.D_beta st) in
  (mget (UHF.D_alpha st) 0 0 = 1 /\ mget (UHF.D_beta st) 0 0 = 0 /\
   mget (UHF.D_total st) 0 0 = 1 /\ mget (UHF.H hydrogen) 0 0 = - two) /\
  (mget (fst G) 0 0 = 1 /\
   G_unrestricted_formula hydrogen (UHF.D_total st) (UHF.D_alpha st) 0 0 = 0) /\
  (mget (snd G) 0 0 = 0 /\
   G_unrestricted_formula hydrogen (UHF.D_total st) (UHF.D_beta st) 0 0 = 1) /\
  (mget (fst F) 0 0 = - 1 /\
   mget (UHF.H hydrogen) 0 0
   + G_unrestricted_formula hydrogen (UHF.D_total st) (UHF.D_alpha st) 0 0
   = - two).
Proof.
  cbv zeta. repeat split; qc_eval.
Qed.

(** ** The convergence test and the iteration ceiling *)

Lemma Qcltb_lt (x y : Qc) : Qcltb x y = true <-> x < y.
Proof. unfold Qcltb. apply bool_decide_eq_true. Qed.

Lemma Qcabs_idem (x : Qc) : Qcabs (Qcabs x) = Qcabs x.
Proof. apply Qcabs_pos, Qcabs_nonneg. Qed.

Lemma convergence_test_true (cfg : config) (dE rmsc : Qc) :
  (Qcltb (Qcabs (Qcabs dE)) (convergence_E cfg)
   && Qcltb rmsc (convergence_DM cfg) = true)
  <-> (Qcabs dE < convergence_E cfg /\ rmsc < convergence_DM cfg).
Proof.
  rewrite andb_true_iff, !Qcltb_lt, Qcabs_idem. reflexivity.
Qed.

Lemma loop_guard_true (st : UHF.state) :
  UHF.loop_guard st = true <->
  UHF.converged st = false /\ UHF.exceeded_iterations st = false.
Proof.
  unfold UHF.loop_guard.
  destruct (UHF.converged st), (UHF.exceeded_iterations st); cbn; intuition congruence.
Qed.

Lemma restricted_loop_guard_true (st : RHF.state) :
  RHF.loop_guard st = true <->
  RHF.converged st = false /\ RHF.exceeded_iterations st = false.
Proof.
  unfold RHF.loop_guard.
  destruct (RHF.converged st), (RHF.exceeded_iterations st); cbn; intuition congruence.
Qed.

(** C2.  In an iteration of either driver the run becomes converged
    exactly when, in that iteration, the energy change is below the energy
    threshold and the change of the (total) density matrix,
    [sqrt(sum((D - D_last)**2))], is below the density threshold; one
    criterion alone never sets [converged]. *)
Theorem converged_iff_both_criteria {lib : NumLib} (cfg : config) :
  (forall (m : UHF.molecule) (st st' : UHF.state),
     UHF.loop_guard st = true ->
     UHF.iteration cfg m st = Ok st' ->
     (UHF.converged st' = true <->
      Qcabs (UHF.E_elec st' - UHF.E_elec st) < convergence_E cfg /\
      np_sqrt (np_sum (msquare (mminus (UHF.D_total st') (UHF.D_total st))))
        < convergence_DM cfg)) /\
  (forall (m : RHF.molecule) (st : RHF.state),
     RHF.loop_guard st = true ->
     let st' := RHF.iteration cfg m st in
     (RHF.converged st' = true <->
      Qcabs (RHF.E_scf_elec st' - RHF.E_scf_elec st) < convergence_E cfg /\
      np_sqrt (np_sum (msquare (mminus (RHF.D st') (RHF.D st))))
        < convergence_DM cfg)).
Proof.
  split.
  - intros m st st' Hguard Hstep.
    apply loop_guard_true in Hguard as [Hconv _].
    apply iteration_inv in Hstep. cbv zeta in Hstep.
    destruct Hstep as (_ & _ & HE & HdE & Hrms & Hc & _).
    rewrite Hc, Hconv, HdE, Hrms, HE. unfold UHF.convergence_test.
    rewrite <- convergence_test_true.
    destruct (_ && _); intuition congruence.
  - intros m st Hguard st'.
    apply restricted_loop_guard_true in Hguard as [Hconv _].
    subst st'. unfold RHF.iteration.
    destruct (eigh _ _) as [E C]. cbn [RHF.converged RHF.E_scf_elec RHF.D].
    rewrite Hconv. unfold RHF.convergence_test.
    rewrite <- convergence_test_true.
    destruct (_ && _); intuition congruence.
Qed.

Lemma converged_iff_both_criteria_helium :
  exists st',
    UHF.loop_guard (UHF.initial_state (lib := diagonal_basis) helium) = true /\
    UHF.iteration (lib := diagonal_basis) one_pass_config helium
      (UHF.initial_state (lib := diagonal_basis) helium) = Ok st' /\
    UHF.converged st' = true /\
    Qcabs (UHF.E_elec st' - 0) < convergence_E one_pass_config.
Proof.
  eexists. split; [reflexivity|]. split; [vm_compute; reflexivity|].
  split; [reflexivity|].
  refine (proj1 (proj1 (proj1 (converged_iff_both_criteria
            (lib := diagonal_basis) one_pass_config)
            helium (UHF.initial_state (lib := diagonal_basis) helium) _ _ _) _)).
  - reflexivity.
  - vm_compute. reflexivity.
  - reflexivity.
Defined.

Lemma scf_loop_unfold {lib : NumLib} (fuel : nat) (cfg : config)
    (m : UHF.molecule) (st : UHF.state) :
  UHF.scf_loop fuel cfg m st
  = if UHF.loop_guard st then
      match fuel with
      | O => UHF.OutOfFuel
      | Datatypes.S fuel' =>
          match UHF.iteration cfg m st with
          | Ok st' => UHF.scf_loop fuel' cfg m st'
          | LinAlgError => UHF.Raised
          end
      end
    else UHF.Finished st.
Proof. destruct fuel; reflexivity. Qed.

(** C10.  When the convergence test passes for the first time in the
    iteration whose number equals [iteration_max], that iteration sets both
    [converged] and [exceeded_iterations], and the loop is left in that
    state. *)
Theorem converged_and_exceeded_together {lib : NumLib} (cfg : config)
    (m : UHF.molecule) (st st' : UHF.state) :
  UHF.loop_guard st = true ->
  Datatypes.S (UHF.iteration_num st) = iteration_max cfg ->
  UHF.iteration cfg m st = Ok st' ->
  UHF.convergence_test cfg (UHF.iteration_E_diff st') (UHF.iteration_rmsc_dm st')
    = true ->
  UHF.iteration_num st' = iteration_max cfg /\
  UHF.converged st' = true /\
  UHF.exceeded_iterations st' = true /\
  forall fuel, UHF.scf_loop (Datatypes.S fuel) cfg m st = UHF.Finished st'.
Proof.
  intros Hguard Hmax Hstep Htest.
  pose proof (iteration_inv cfg m st st' Hstep) as Hinv. cbv zeta in Hinv.
  destruct Hinv as (_ & Hnum & _ & _ & _ & Hc & Hx & _).
  rewrite Htest in Hc. rewrite Hmax, Nat.eqb_refl in Hx.
  split; [congruence|]. split; [exact Hc|]. split; [exact Hx|].
  intros fuel. rewrite scf_loop_unfold, Hguard, Hstep, scf_loop_unfold.
  unfold UHF.loop_guard. rewrite Hc. reflexivity.
Qed.

Lemma converged_and_exceeded_together_helium :
  exists st',
    UHF.iteration (lib := diagonal_basis) one_pass_config helium
      (UHF.initial_state (lib := diagonal_basis) helium) = Ok st' /\
    UHF.converged st' = true /\
    UHF.exceeded_iterations st' = true /\
    UHF.run (lib := diagonal_basis) 1 one_pass_config helium = UHF.Finished st'.
Proof.
  eexists. split; [vm_compute; reflexivity|].
  refine (let P := converged_and_exceeded_together (lib := diagonal_basis)
                     one_pass_config helium
                     (UHF.initial_state (lib := diagonal_basis) helium) _
                     _ _ _ _ in
          conj (proj1 (proj2 P)) (conj (proj1 (proj2 (proj2 P)))
                 (proj2 (proj2 (proj2 P)) 0%nat))).
  - reflexivity.
  - reflexivity.
  - vm_compute. reflexivity.
  - vm_compute. reflexivity.
Defined.

(** *** The ceiling *)

(** What the flags say about the counter at the head of the loop. *)
Lemma ceiling_invariant_step {lib : NumLib} (cfg : config) (m : UHF.molecule)
    (st st' : UHF.state) :
  UHF.loop_guard st = true ->
  (UHF.iteration_num st < iteration_max cfg)%nat ->
  UHF.iteration cfg m st = Ok st' ->
  UHF.iteration_num st' = Datatypes.S (UHF.iteration_num st) /\
  (UHF.exceeded_iterations st' = false ->
     (UHF.iteration_num st' < iteration_max cfg)%nat) /\
  (UHF.exceeded_iterations st' = true ->
     UHF.iteration_num st' = iteration_max cfg) /\
  (UHF.converged st' = true ->
     UHF.convergence_test cfg (UHF.iteration_E_diff st')
       (UHF.iteration_rmsc_dm st') = true).
Proof.
  intros Hguard Hlt Hstep.
  apply loop_guard_true in Hguard as [Hconv Hexc].
  apply iteration_inv in Hstep. cbv zeta in Hstep.
  destruct Hstep as (_ & Hnum & _ & _ & _ & Hc & Hx & _).
  rewrite Hexc in Hx. rewrite Hconv in Hc. rewrite Hnum.
  split; [reflexivity|].
  destruct (Nat.eqb_spec (Datatypes.S (UHF.iteration_num st)) (iteration_max cfg))
    as [Heq|Hne]; rewrite Hx.
  - split; [discriminate|]. split; [intros _; exact Heq|].
    rewrite Hc. destruct (UHF.convergence_test _ _ _); [reflexivity|discriminate].
  - split; [intros _; lia|]. split; [discriminate|].
    rewrite Hc. destruct (UHF.convergence_test _ _ _); [reflexivity|discriminate].
Qed.

Lemma scf_loop_within_ceiling {lib : NumLib} (cfg : config) (m : UHF.molecule)
    (fuel : nat) (st : UHF.state) :
  (UHF.exceeded_iterations st = false ->
     (UHF.iteration_num st < iteration_max cfg)%nat) ->
  (UHF.exceeded_iterations st = true ->
     UHF.iteration_num st = iteration_max cfg) ->
  (UHF.converged st = true ->
     UHF.convergence_test cfg (UHF.iteration_E_diff st)
       (UHF.iteration_rmsc_dm st) = true) ->
  (iteration_max cfg - UHF.iteration_num st <= fuel)%nat ->
  match UHF.scf_loop fuel cfg m st with
  | UHF.OutOfFuel => False
  | UHF.Raised => True
  | UHF.Finished st_end =>
      (UHF.iteration_num st <= UHF.iteration_num st_end)%nat /\
      (UHF.iteration_num st_end <= iteration_max cfg)%nat /\
      (UHF.converged st_end = true \/ UHF.exceeded_iterations st_end = true) /\
      (UHF.converged st_end = false ->
         UHF.exceeded_iterations st_end = true /\
         UHF.iteration_num st_end = iteration_max cfg) /\
      (UHF.converged st_end = true ->
         UHF.convergence_test cfg (UHF.iteration_E_diff st_end)
           (UHF.iteration_rmsc_dm st_end) = true)
  end.
Proof.
  revert st. induction fuel as [|fuel IH]; intros st Hlt Heq Hcv Hfuel;
    rewrite scf_loop_unfold;
    destruct (UHF.loop_guard st) eqn:Hguard.
  - apply loop_guard_true in Hguard as [_ Hexc]. specialize (Hlt Hexc). lia.
  - unfold UHF.loop_guard in Hguard.
    destruct (UHF.converged st) eqn:Hc, (UHF.exceeded_iterations st) eqn:Hx;
      try discriminate; repeat split; auto; try lia; try discriminate;
      try (specialize (Heq eq_refl); lia); try (specialize (Hlt eq_refl); lia).
  - pose proof (proj1 (loop_guard_true st) Hguard) as [_ Hexc].
    specialize (Hlt Hexc).
    destruct (UHF.iteration cfg m st) as [st'|] eqn:Hstep; [|exact I].
    destruct (ceiling_invariant_step cfg m st st' Hguard Hlt Hstep)
      as (Hnum & Hlt' & Heq' & Hcv').
    specialize (IH st' Hlt' Heq' Hcv').
    destruct (UHF.scf_loop fuel cfg m st') as [st_end| |].
    + destruct IH as (Hle & Hrest); [lia|]. split; [lia | exact Hrest].
    + exact I.
    + apply IH. lia.
  - unfold UHF.loop_guard in Hguard.
    destruct (UHF.converged st) eqn:Hc, (UHF.exceeded_iterations st) eqn:Hx;
      try discriminate; repeat split; auto; try lia; try discriminate;
      try (specialize (Heq eq_refl); lia); try (specialize (Hlt eq_refl); lia).
Qed.

Lemma initial_state_fields {lib : NumLib} (m : UHF.molecule) :
  let C := snd (eigh (UHF.H m) (UHF.S m)) in
  UHF.iteration_num (UHF.initial_state m) = 0%nat /\
  UHF.converged (UHF.initial_state m) = false /\
  UHF.exceeded_iterations (UHF.initial_state m) = false /\
  UHF.D_alpha (UHF.initial_state m)
    = RHF.build_density (UHF.num_ao m) (UHF.num_elec_alpha m) C /\
  UHF.D_beta (UHF.initial_state m)
    = RHF.build_density (UHF.num_ao m) (UHF.num_elec_beta m) C /\
  UHF.D_total (UHF.initial_state m)
    = mplus (UHF.D_alpha (UHF.initial_state m)) (UHF.D_beta (UHF.initial_state m)) /\
  UHF.F_list_alpha (UHF.initial_state m) = [] /\
  UHF.F_list_beta (UHF.initial_state m) = [] /\
  UHF.DIIS_resid_alpha (UHF.initial_state m) = [] /\
  UHF.DIIS_resid_beta (UHF.initial_state m) = [].
Proof.
  unfold UHF.initial_state.
  destruct (eigh (UHF.H m) (UHF.S m)) as [E C].
  rewrite build_densities_split. cbn. repeat split.
Qed.

(** C8.  With a ceiling of at least one iteration the loop is left within
    [iteration_max] passes: a run of the unrestricted notebook either is
    aborted by the [LinAlgError] of a DIIS solve or ends with [converged]
    or [exceeded_iterations] set; if it ends without convergence then
    [exceeded_iterations] is set and the counter equals [iteration_max];
    and [converged] is set only if the convergence test passed in the last
    pass. *)
Theorem loop_ends_within_ceiling {lib : NumLib} (cfg : config) (m : UHF.molecule) :
  (1 <= iteration_max cfg)%nat ->
  match UHF.run (iteration_max cfg) cfg m with
  | UHF.OutOfFuel => False
  | UHF.Raised => True
  | UHF.Finished st_end =>
      (UHF.iteration_num st_end <= iteration_max cfg)%nat /\
      (UHF.converged st_end = true \/ UHF.exceeded_iterations st_end = true) /\
      (UHF.converged st_end = false ->
         UHF.exceeded_iterations st_end = true /\
         UHF.iteration_num st_end = iteration_max cfg) /\
      (UHF.converged st_end = true ->
         UHF.convergence_test cfg (UHF.iteration_E_diff st_end)
           (UHF.iteration_rmsc_dm st_end) = true)
  end.
Proof.
  intros Hmax. unfold UHF.run.
  pose proof (initial_state_fields m) as Hinit. cbv zeta in Hinit.
  destruct Hinit as (Hnum & Hc & Hx & _).
  pose proof (scf_loop_within_ceiling cfg m (iteration_max cfg)
                (UHF.initial_state m)) as Hloop.
  rewrite Hnum, Hc, Hx in Hloop.
  specialize (Hloop ltac:(intros _; lia) ltac:(discriminate)
                ltac:(discriminate) ltac:(lia)).
  destruct (UHF.scf_loop (iteration_max cfg) cfg m (UHF.initial_state m));
    [|exact Hloop..].
  destruct Hloop as (_ & Hrest). exact Hrest.
Qed.

Lemma loop_ends_within_ceiling_helium :
  (1 <= iteration_max one_pass_config)%nat /\
  exists st_end,
    UHF.run (lib := diagonal_basis) (iteration_max one_pass_config)
      one_pass_config helium = UHF.Finished st_end /\
    (UHF.iteration_num st_end <= iteration_max one_pass_config)%nat.
Proof.
  split; [vm_compute; lia|].
  pose proof (loop_ends_within_ceiling (lib := diagonal_basis)
                one_pass_config helium ltac:(vm_compute; lia)) as Hend.
  destruct (UHF.run (iteration_max one_pass_config) one_pass_config helium)
    as [st_end| |] eqn:Hrun.
  - exists st_end. split; [reflexivity | exact (proj1 Hend)].
  - exfalso. vm_compute in Hrun. discriminate.
  - contradiction.
Defined.

(** With a ceiling of zero the counter passes the ceiling in the first
    pass, [exceeded_iterations] stays unset and the loop goes on.  And with
    the notebook's own ceiling a run whose convergence test never passes
    can end without [exceeded_iterations]: on [helium] it ends in its
    second pass with the exception of the DIIS solve. *)
Lemma ceiling_missed_or_run_aborted :
  (exists st,
     UHF.iteration (lib := diagonal_basis) zero_ceiling_config helium
       (UHF.initial_state (lib := diagonal_basis) helium) = Ok st /\
     (iteration_max zero_ceiling_config < UHF.iteration_num st)%nat /\
     UHF.exceeded_iterations st = false /\
     UHF.loop_guard st = true) /\
  UHF.run (lib := diagonal_basis) (iteration_max notebook_config)
    notebook_config helium = UHF.Raised.
Proof.
  split; [|vm_compute; reflexivity].
  eexists. split; [vm_compute; reflexivity|].
  split; [vm_compute; lia|]. split; reflexivity.
Qed.

(** ** DIIS *)

Lemma diis_raises_iff {lib : NumLib} (F_list diis_res : list matrix) :
  UHF.diis F_list diis_res = LinAlgError <-> solve_raises (F_list, diis_res).
Proof.
  unfold UHF.diis, solve_raises. cbn [fst snd].
  destruct (linalg_solve _ _); split; intros Heq; congruence.
Qed.

Lemma iteration_raises_iff {lib : NumLib} (cfg : config) (m : UHF.molecule)
    (st : UHF.state) :
  UHF.iteration cfg m st = LinAlgError <->
  (1 <= UHF.iteration_num st)%nat /\
  (solve_raises (appended_alpha m st) \/ solve_raises (appended_beta m st)).
Proof.
  unfold UHF.iteration, appended_alpha, appended_beta.
  destruct (UHF.build_fock m (UHF.D_alpha st) (UHF.D_beta st)) as [Fa0 Fb0].
  cbn [fst snd]. unfold UHF.extrapolate.
  destruct (Nat.leb_spec 2 (Datatypes.S (UHF.iteration_num st))) as [Hk|Hk].
  - rewrite <- !diis_raises_iff.
    destruct (UHF.diis _ _) as [Fa|]; cbn [bind].
    + destruct (UHF.diis _ _) as [Fb|]; cbn [bind].
      * destruct (eigh Fa _), (eigh Fb _), (UHF.build_densities _ _ _ _ _).
        split; [discriminate|]. intros [_ [Hr|Hr]]; discriminate.
      * split; [intros _|reflexivity]. split; [lia | right; reflexivity].
    + split; [intros _|reflexivity]. split; [lia | left; reflexivity].
  - cbn [bind].
    destruct (eigh Fa0 _), (eigh Fb0 _), (UHF.build_densities _ _ _ _ _).
    split; [discriminate|]. intros [Hnum _]. lia.
Qed.

(** C3.  A singular Pulay matrix makes [np.linalg.solve] raise
    [LinAlgError]; [diis] does not catch it and neither does the loop: from
    the second pass on, if the solve of either spin channel raises, [diis]
    raises, the pass raises, and the run ends with the exception.  There is
    no fall-back to the unextrapolated Fock matrix. *)
Theorem singular_pulay_matrix_aborts {lib : NumLib} (cfg : config)
    (m : UHF.molecule) (st : UHF.state) :
  (1 <= UHF.iteration_num st)%nat ->
  solve_raises (appended_alpha m st) \/ solve_raises (appended_beta m st) ->
  (UHF.diis (fst (appended_alpha m st)) (snd (appended_alpha m st)) = LinAlgError \/
   UHF.diis (fst (appended_beta m st)) (snd (appended_beta m st)) = LinAlgError) /\
  UHF.iteration cfg m st = LinAlgError /\
  (UHF.loop_guard st = true ->
   forall fuel, UHF.scf_loop (Datatypes.S fuel) cfg m st = UHF.Raised).
Proof.
  intros Hnum Hsolve.
  assert (Hstep : UHF.iteration cfg m st = LinAlgError).
  { apply iteration_raises_iff. split; assumption. }
  split; [|split; [exact Hstep|]].
  - destruct Hsolve as [Hs|Hs]; [left|right]; apply diis_raises_iff;
      destruct (appended_alpha m st), (appended_beta m st); exact Hs.
  - intros Hguard fuel. rewrite scf_loop_unfold, Hguard, Hstep. reflexivity.
Qed.

Section HeliumRun.
#[local] Existing Instance diagonal_basis.

(** The first pass on [helium] reproduces the core guess, so the second
    pass appends the residual of the first once more: the Pulay matrix has
    two equal rows, the solve raises and the run ends with the exception
    in its second pass. *)
Lemma helium_second_pass_raises :
  exists st1,
    UHF.iteration notebook_config helium (UHF.initial_state helium) = Ok st1 /\
    UHF.loop_guard st1 = true /\
    singular (UHF.pulay_B (snd (appended_alpha helium st1))
                (length (fst (appended_alpha helium st1)))) /\
    UHF.iteration notebook_config helium st1 = LinAlgError /\
    UHF.run (iteration_max notebook_config) notebook_config helium = UHF.Raised.
Proof.
  eexists. split; [vm_compute; reflexivity|].
  split; [reflexivity|]. split; [unfold singular; qc_eval|].
  split; vm_compute; reflexivity.
Qed.

Lemma singular_pulay_matrix_aborts_helium :
  exists st1,
    UHF.reachable notebook_config helium st1 /\
    (1 <= UHF.iteration_num st1)%nat /\
    solve_raises (appended_alpha helium st1) /\
    UHF.iteration notebook_config helium st1 = LinAlgError.
Proof.
  eexists. split.
  - eapply UHF.reach_iteration; [apply UHF.reach_initial | reflexivity |].
    vm_compute. reflexivity.
  - split; [vm_compute; lia|]. split; [vm_compute; reflexivity|].
    refine (proj1 (proj2 (singular_pulay_matrix_aborts notebook_config helium
                            _ _ _))).
    + vm_compute. lia.
    + left. vm_compute. reflexivity.
Defined.

End HeliumRun.

(** *** Short histories *)

Lemma reachable_history_length {lib : NumLib} (cfg : config) (m : UHF.molecule)
    (st : UHF.state) :
  UHF.reachable cfg m st ->
  length (UHF.F_list_alpha st) = UHF.iteration_num st /\
  length (UHF.F_list_beta st) = UHF.iteration_num st /\
  length (UHF.DIIS_resid_alpha st) = UHF.iteration_num st /\
  length (UHF.DIIS_resid_beta st) = UHF.iteration_num st.
Proof.
  induction 1 as [|st st' _ IH _ Hstep].
  - pose proof (initial_state_fields m) as Hinit. cbv zeta in Hinit.
    destruct Hinit as (-> & _ & _ & _ & _ & _ & -> & -> & -> & ->).
    repeat split.
  - apply iteration_inv in Hstep. cbv zeta in Hstep.
    destruct Hstep as (_ & -> & _ & _ & _ & _ & _ & _ & _ & _ & _ & _ & _ &
                       -> & -> & -> & ->).
    destruct IH as (Ha & Hb & Hra & Hrb).
    rewrite !length_app, Ha, Hb, Hra, Hrb. cbn. repeat split; lia.
Qed.

Lemma zip_with_zero_one (row : vector) :
  zip_with Qcplus (replicate (length row) 0) (map (Qcmult 1) row) = row.
Proof.
  induction row as [|x row IH]; [reflexivity|].
  cbn. rewrite IH. f_equal. ring.
Qed.

Lemma mplus_zeros_like_one (F : matrix) :
  mplus (zeros_like F) (mscale 1 F) = F.
Proof.
  unfold mplus, map2, zeros_like, mscale.
  induction F as [|row F IH]; [reflexivity|].
  cbn. rewrite IH, zip_with_zero_one. reflexivity.
Qed.

Lemma pulay_B_single (e : matrix) :
  UHF.pulay_B (e :: nil) 1
  = (einsum_ij_ij e e :: - 1 :: nil) :: (- 1 :: 0 :: nil) :: nil.
Proof. reflexivity. Qed.

(** The coefficient of a one-entry history is [1], whatever the residual. *)
Lemma single_history_coefficient (e : matrix) (cn : vector) :
  length cn = 2%nat ->
  matvec (UHF.pulay_B (e :: nil) 1) cn = UHF.pulay_right 1 ->
  vget cn 0 = 1.
Proof.
  intros Hlen. rewrite pulay_B_single.
  destruct cn as [|c0 [|c1 [|c2 cn]]]; try discriminate.
  unfold matvec, dot, UHF.pulay_right. cbn.
  intros Heq.
  assert (Hrow : - 1 * c0 + (0 * c1 + 0) = - 1) by congruence.
  unfold vget. cbn.
  transitivity (- (- 1 * c0 + (0 * c1 + 0))); [ring|]. rewrite Hrow. ring.
Qed.

(** The reference solver never raises on a one-entry history. *)
Lemma exact_solve_single_history (e : matrix) :
  exact_solve (UHF.pulay_B (e :: nil) 1) (UHF.pulay_right 1)
  = Some (1 :: einsum_ij_ij e e :: nil).
Proof.
  rewrite pulay_B_single. generalize (einsum_ij_ij e e). intros x.
  unfold exact_solve, UHF.pulay_right.
  assert (Hd : det 2 ((x :: - 1 :: nil) :: (- 1 :: 0 :: nil) :: nil) = - 1).
  { unfold det, for_range, vget. cbn. ring. }
  cbn [length]. rewrite Hd.
  case_bool_decide as Hz; [discriminate Hz|].
  f_equal. unfold det, for_range, vget. cbn.
  apply (f_equal2 cons); [|apply (f_equal2 cons); [|reflexivity]];
    field; discriminate.
Qed.

(** C7.  While a channel's DIIS history (after the append of the current
    pass) holds fewer than two entries, the pass does not extrapolate: it
    cannot raise, and the Fock matrices that are diagonalised are the ones
    just built.  And [diis] on a history of one entry returns that trial
    Fock matrix unchanged, with coefficient [1], whenever the solver returns
    a solution of the Pulay system. *)
Theorem short_history_keeps_raw_fock {lib : NumLib} (cfg : config)
    (m : UHF.molecule) :
  (forall st, UHF.reachable cfg m st ->
     (length (fst (appended_alpha m st)) < 2)%nat \/
     (length (fst (appended_beta m st)) < 2)%nat ->
     exists st',
       UHF.iteration cfg m st = Ok st' /\
       (UHF.F_alpha st', UHF.F_beta st')
         = UHF.build_fock m (UHF.D_alpha st) (UHF.D_beta st) /\
       UHF.C_alpha st' = snd (eigh (UHF.F_alpha st') (UHF.S m)) /\
       UHF.C_beta st' = snd (eigh (UHF.F_beta st') (UHF.S m))) /\
  (forall (F e : matrix) (cn : vector),
     linalg_solve (UHF.pulay_B (e :: nil) 1) (UHF.pulay_right 1) = Some cn ->
     length cn = 2%nat ->
     matvec (UHF.pulay_B (e :: nil) 1) cn = UHF.pulay_right 1 ->
     vget cn 0 = 1 /\ UHF.diis (F :: nil) (e :: nil) = Ok F).
Proof.
  split.
  - intros st Hreach Hshort.
    destruct (reachable_history_length cfg m st Hreach) as (Ha & Hb & _).
    assert (Hnum : UHF.iteration_num st = 0%nat).
    { unfold appended_alpha, appended_beta in Hshort. cbn [fst] in Hshort.
      rewrite !length_app, Ha, Hb in Hshort. cbn in Hshort. lia. }
    destruct (UHF.iteration cfg m st) as [st'|] eqn:Hstep.
    + exists st'. split; [reflexivity|].
      apply iteration_inv in Hstep. cbv zeta in Hstep.
      destruct Hstep as (Hex & _ & _ & _ & _ & _ & _ & _ & HCa & HCb & _).
      split; [|split; assumption].
      apply extrapolate_inv in Hex as [(_ & -> & ->) | (Hk & _)]; [|lia].
      destruct (UHF.build_fock _ _ _); reflexivity.
    + apply iteration_raises_iff in Hstep as [Hk _]. lia.
  - intros F e cn Hsolve Hlen Hsol.
    pose proof (single_history_coefficient e cn Hlen Hsol) as Hc.
    split; [exact Hc|].
    unfold UHF.diis. cbn [length]. rewrite Hsolve, Hlen.
    cbn [Nat.sub]. unfold for_range. cbn [seq fold_left].
    unfold mat_at. cbn [lookup list_lookup default from_option].
    rewrite Hc. f_equal. apply mplus_zeros_like_one.
Qed.

Lemma short_history_keeps_raw_fock_helium :
  (exists st',
     UHF.iteration (lib := diagonal_basis) notebook_config helium
       (UHF.initial_state (lib := diagonal_basis) helium) = Ok st' /\
     (UHF.F_alpha st', UHF.F_beta st')
       = UHF.build_fock helium
           (UHF.D_alpha (UHF.initial_state (lib := diagonal_basis) helium))
           (UHF.D_beta (UHF.initial_state (lib := diagonal_basis) helium))) /\
  UHF.diis (lib := diagonal_basis) (mat1 (- 1) :: nil) (mat1 two :: nil)
    = Ok (mat1 (- 1)).
Proof.
  pose proof (short_history_keeps_raw_fock (lib := diagonal_basis)
                notebook_config helium) as [Hskip Hone].
  split.
  - destruct (Hskip (UHF.initial_state (lib := diagonal_basis) helium))
      as (st' & Hstep & HF & _).
    + apply UHF.reach_initial.
    + left. vm_compute. lia.
    + exists st'. split; assumption.
  - refine (proj2 (Hone (mat1 (- 1)) (mat1 two)
                     (1 :: einsum_ij_ij (mat1 two) (mat1 two) :: nil) _ _ _)).
    + exact (exact_solve_single_history (mat1 two)).
    + reflexivity.
    + rewrite pulay_B_single. unfold matvec, dot, UHF.pulay_right. cbn.
      apply (f_equal2 cons); [qc_eval|].
      apply (f_equal2 cons); [qc_eval | reflexivity].
Defined.

(** ** The electronic energy *)

Lemma qsum_shift (n : nat) (f : nat -> Qc) :
  qsum (Datatypes.S n) f = f 0%nat + qsum n (fun k => f (Datatypes.S k)).
Proof.
  induction n as [|n IH]; [cbn; ring|].
  change (qsum (Datatypes.S (Datatypes.S n)) f)
    with (qsum (Datatypes.S n) f + f (Datatypes.S n)).
  rewrite IH. cbn [qsum]. ring.
Qed.

Lemma vsum_qsum (v : vector) : vsum v = qsum (length v) (vget v).
Proof.
  induction v as [|x v IH]; [reflexivity|].
  cbn [length]. rewrite qsum_shift. cbn [vsum fold_right].
  fold (vsum v). rewrite IH. reflexivity.
Qed.

(** Shapes of elementwise combinations of the arrays at hand. *)
Ltac square_tac := repeat first [assumption | apply square_map2].

(** [np.sum] of a square array is the double sum of its entries. *)
Lemma np_sum_square (n : nat) (M : matrix) :
  square n M ->
  np_sum M = qsum n (fun i => qsum n (fun j => mget M i j)).
Proof.
  intros HM. unfold np_sum. rewrite vsum_qsum, length_map.
  destruct HM as [Hlen Hrows]. rewrite Hlen.
  apply qsum_ext. intros i Hi.
  unfold vget, mget. rewrite list_lookup_fmap.
  destruct (M !! i) as [row|] eqn:Erow; cbn.
  - rewrite Forall_lookup in Hrows. rewrite vsum_qsum, (Hrows i row Erow).
    reflexivity.
  - apply lookup_ge_None in Erow. lia.
Qed.

(** C4.  In every pass the unrestricted driver computes
    [E_elec = 0.5 * sum(Ptotal*H + P_alpha*F_alpha + P_beta*F_beta)] from the
    densities the pass starts with and the Fock matrices it has just built
    (the ones appended to the DIIS lists, before any extrapolation); the
    restricted driver computes [E_elec = sum(P*(H + F))], without the
    factor, from its rebuilt density and the Fock matrix of the pass.  On
    arrays of shape [(n, n)] the unrestricted value is the double sum of the
    entrywise products. *)
Theorem electronic_energy_formulas {lib : NumLib} (cfg : config) :
  (forall (m : UHF.molecule) (st st' : UHF.state),
     UHF.iteration cfg m st = Ok st' ->
     let F0 := UHF.build_fock m (UHF.D_alpha st) (UHF.D_beta st) in
     UHF.E_elec st'
     = half * np_sum (mplus (mplus (np_multiply (UHF.D_total st) (UHF.H m))
                                   (np_multiply (UHF.D_alpha st) (fst F0)))
                            (np_multiply (UHF.D_beta st) (snd F0))) /\
     last (UHF.F_list_alpha st') = Some (fst F0) /\
     last (UHF.F_list_beta st') = Some (snd F0) /\
     (let n := UHF.num_ao m in
      square n (UHF.H m) -> square n (UHF.D_total st) ->
      square n (UHF.D_alpha st) -> square n (UHF.D_beta st) ->
      UHF.E_elec st'
      = half * qsum n (fun i => qsum n (fun j =>
          mget (UHF.D_total st) i j * mget (UHF.H m) i j
          + mget (UHF.D_alpha st) i j * mget (fst F0) i j
          + mget (UHF.D_beta st) i j * mget (snd F0) i j)))) /\
  (forall (m : RHF.molecule) (st : RHF.state),
     let st' := RHF.iteration cfg m st in
     RHF.F st' = mplus (RHF.H m) (RHF.form_G m (RHF.D st)) /\
     RHF.E_scf_elec st'
     = np_sum (np_multiply (RHF.D st') (mplus (RHF.H m) (RHF.F st')))).
Proof.
  split.
  - intros m st st' Hstep F0.
    apply iteration_inv in Hstep. cbv zeta in Hstep.
    destruct Hstep as (_ & _ & HE & _ & _ & _ & _ & _ & _ & _ & _ & _ & _ &
                       HLa & HLb & _).
    fold F0 in HE, HLa, HLb.
    split; [exact HE|]. split; [rewrite HLa; apply last_snoc|].
    split; [rewrite HLb; apply last_snoc|].
    intros n HH HDt HDa HDb. rewrite HE. unfold UHF.electronic_energy. f_equal.
    assert (HFa : square n (fst F0) /\ square n (snd F0)).
    { subst F0. rewrite build_fock_split. cbn [fst snd].
      split; (apply square_map2; [exact HH | apply contraction_spec]). }
    destruct HFa as [HFa HFb].
    rewrite (np_sum_square n) by square_tac.
    apply qsum_ext. intros i _. apply qsum_ext. intros j _.
    rewrite !(mget_mplus n), !(mget_np_multiply n) by square_tac.
    reflexivity.
  - intros m st st'. subst st'. unfold RHF.iteration.
    destruct (eigh _ _) as [E C]. cbn. split; reflexivity.
Qed.

Lemma electronic_energy_formulas_helium :
  exists st',
    UHF.iteration (lib := diagonal_basis) notebook_config helium
      (UHF.initial_state (lib := diagonal_basis) helium) = Ok st' /\
    UHF.E_elec st' = - three.
Proof.
  eexists. split; [vm_compute; reflexivity|].
  refine (eq_trans (proj1 (proj1 (electronic_energy_formulas
            (lib := diagonal_basis) notebook_config) helium
            (UHF.initial_state (lib := diagonal_basis) helium) _ _)) _).
  - vm_compute. reflexivity.
  - qc_eval.
Defined.

(** ** The starting densities *)

Lemma contraction_of_zeros (n : nat) (t : nat -> nat -> nat -> nat -> Qc)
    (a b : nat) :
  mget (contraction n (zeros n n) t) a b = 0.
Proof.
  rewrite (proj2 (contraction_spec n (zeros n n) t)).
  unfold inside, contraction_formula.
  destruct (_ && _); [|reflexivity].
  transitivity (qsum n (fun _ => 0)); [|apply qsum_zero].
  apply qsum_ext. intros k _.
  transitivity (qsum n (fun _ => 0)); [|apply qsum_zero].
  apply qsum_ext. intros l _. rewrite mget_zeros. ring.
Qed.

Lemma restricted_first_fock (m : RHF.molecule) :
  square (RHF.num_ao m) (RHF.H m) ->
  mplus (RHF.H m) (RHF.form_G m (zeros (RHF.num_ao m) (RHF.num_ao m))) = RHF.H m.
Proof.
  intros HH. rewrite restricted_form_G.
  apply (matrix_ext (RHF.num_ao m)); [|exact HH|].
  - apply square_map2; [exact HH | apply contraction_spec].
  - intros a b _ _. rewrite (mget_mplus (RHF.num_ao m));
      [|exact HH | apply contraction_spec].
    rewrite contraction_of_zeros. ring.
Qed.

(** C6.  The unrestricted driver starts, before its first pass, from the
    core-Hamiltonian guess: it diagonalises [H] against [S] and builds the
    density of each spin channel from the first [N_alpha], respectively
    [N_beta], columns of the eigenvector matrix.  The restricted driver
    starts from the zero density; its first pass then builds [F = H] and
    rebuilds the density from the first [N_alpha] columns of the
    eigenvectors of [H] against [S]. *)
Theorem starting_densities {lib : NumLib} :
  (forall m : UHF.molecule,
     let C := snd (eigh (UHF.H m) (UHF.S m)) in
     let st0 := UHF.initial_state m in
     UHF.iteration_num st0 = 0%nat /\
     (forall i j, mget (UHF.D_alpha st0) i j
        = inside (UHF.num_ao m) i j (density_formula (UHF.num_elec_alpha m) C i j)) /\
     (forall i j, mget (UHF.D_beta st0) i j
        = inside (UHF.num_ao m) i j (density_formula (UHF.num_elec_beta m) C i j)) /\
     UHF.D_total st0 = mplus (UHF.D_alpha st0) (UHF.D_beta st0)) /\
  (forall (cfg : config) (m : RHF.molecule),
     RHF.iteration_num (RHF.initial_state m) = 0%nat /\
     RHF.D (RHF.initial_state m) = zeros (RHF.num_ao m) (RHF.num_ao m) /\
     (square (RHF.num_ao m) (RHF.H m) ->
      let st1 := RHF.iteration cfg m (RHF.initial_state m) in
      let C := snd (eigh (RHF.H m) (RHF.S m)) in
      RHF.F st1 = RHF.H m /\
      forall i j, mget (RHF.D st1) i j
        = inside (RHF.num_ao m) i j (density_formula (RHF.num_elec_alpha m) C i j))).
Proof.
  split.
  - intros m C st0. subst C st0.
    pose proof (initial_state_fields m) as Hinit. cbv zeta in Hinit.
    destruct Hinit as (Hnum & _ & _ & HDa & HDb & HDt & _).
    split; [exact Hnum|]. rewrite HDt, HDa, HDb.
    split; [apply build_density_spec|]. split; [apply build_density_spec|].
    reflexivity.
  - intros cfg m. split; [reflexivity|]. split; [reflexivity|].
    intros HH st1 C. subst st1 C. unfold RHF.iteration.
    cbn [RHF.D RHF.initial_state].
    rewrite (restricted_first_fock m HH).
    destruct (eigh (RHF.H m) (RHF.S m)) as [E C]. cbn [RHF.F RHF.D snd].
    split; [reflexivity | apply build_density_spec].
Qed.

Lemma helium_packed_H_square : square 1 (RHF.H helium_packed).
Proof. vm_compute. split; [reflexivity | repeat constructor]. Qed.

Lemma starting_densities_helium :
  square (RHF.num_ao helium_packed) (RHF.H helium_packed) /\
  RHF.F (RHF.iteration (lib := diagonal_basis) notebook_config helium_packed
           (RHF.initial_state helium_packed))
  = RHF.H helium_packed.
Proof.
  split; [exact helium_packed_H_square|].
  exact (proj1 (proj2 (proj2 (proj2 (starting_densities (lib := diagonal_basis))
           notebook_config helium_packed)) helium_packed_H_square)).
Defined.

(** The restricted notebook does not start from the core-Hamiltonian
    guess: on [helium_packed] its starting density is [[0]], where the
    density of the lowest orbital of [H] against [S] is [[1]]. *)
Lemma restricted_start_is_not_core_guess :
  mget (RHF.D (RHF.initial_state helium_packed)) 0 0 = 0 /\
  mget (RHF.build_density (RHF.num_ao helium_packed)
          (RHF.num_elec_alpha helium_packed)
          (snd (eigh (NumLib := diagonal_basis) (RHF.H helium_packed)
                  (RHF.S helium_packed)))) 0 0 = 1 /\
  RHF.D (RHF.initial_state helium_packed)
  <> RHF.build_density (RHF.num_ao helium_packed)
       (RHF.num_elec_alpha helium_packed)
       (snd (eigh (NumLib := diagonal_basis) (RHF.H helium_packed)
               (RHF.S helium_packed))).
Proof.
  split; [qc_eval|]. split; [qc_eval|].
  intros Heq.
  apply (f_equal (fun M => this (mget M 0 0))) in Heq.
  vm_compute in Heq. discriminate.
Qed.

(** ** Closed shells: the unrestricted pass and the restricted formulas *)

Lemma contraction_ext (n : nat) (D : matrix)
    (t t' : nat -> nat -> nat -> nat -> Qc) :
  (forall i j k l, (i < n)%nat -> (j < n)%nat -> (k < n)%nat -> (l < n)%nat ->
     t i j k l = t' i j k l) ->
  contraction n D t = contraction n D t'.
Proof.
  intros Ht. unfold contraction.
  apply for_range_ext. intros i G1 Hi.
  apply for_range_ext. intros j G2 Hj.
  apply for_range_ext. intros k G3 Hk.
  apply for_range_ext. intros l G4 Hl.
  rewrite (Ht i j k l Hi Hj Hk Hl). reflexivity.
Qed.

Lemma same_inputs_H (mu : UHF.molecule) (mr : RHF.molecule) :
  same_inputs mu mr -> UHF.H mu = RHF.H mr.
Proof.
  intros (_ & _ & _ & HT & HV & _). unfold UHF.H, RHF.H. rewrite HT, HV.
  reflexivity.
Qed.

(** With one density in both channels the unrestricted Fock builder
    returns the restricted Fock matrix of that density, twice. *)
Lemma build_fock_closed_shell (mu : UHF.molecule) (mr : RHF.molecule) (D : matrix) :
  same_inputs mu mr ->
  UHF.build_fock mu D D
  = (mplus (RHF.H mr) (RHF.form_G mr D), mplus (RHF.H mr) (RHF.form_G mr D)).
Proof.
  intros Hsame. rewrite build_fock_split, restricted_form_G.
  rewrite (same_inputs_H mu mr Hsame).
  destruct Hsame as (Hn & _ & _ & _ & _ & Heri). rewrite <- Hn.
  rewrite (contraction_ext (UHF.num_ao mu) D (coulomb_exchange (UHF.eri mu))
             (fun i j k l => two * RHF.eri mr (RHF.idx4 i j k l)
                             - RHF.eri mr (RHF.idx4 i k j l))).
  - reflexivity.
  - intros i j k l Hi Hj Hk Hl. unfold coulomb_exchange.
    rewrite (Heri i j k l), (Heri i k j l) by assumption. reflexivity.
Qed.

(** The unrestricted energy expression with one density [D] in both
    channels and [Ptotal = D + D] is the restricted expression. *)
Lemma electronic_energy_closed_shell (m : UHF.molecule) (D F : matrix) :
  square (UHF.num_ao m) (UHF.H m) ->
  square (UHF.num_ao m) D ->
  square (UHF.num_ao m) F ->
  UHF.electronic_energy m (mplus D D) D D F F
  = np_sum (np_multiply D (mplus (UHF.H m) F)).
Proof.
  intros HH HD HF. unfold UHF.electronic_energy.
  rewrite !(np_sum_square (UHF.num_ao m)) by square_tac.
  rewrite <- qsum_scale. apply qsum_ext. intros i _.
  rewrite <- qsum_scale. apply qsum_ext. intros j _.
  rewrite !(mget_mplus (UHF.num_ao m)), !(mget_np_multiply (UHF.num_ao m)),
    !(mget_mplus (UHF.num_ao m)) by square_tac.
  unfold half. field. discriminate.
Qed.

Section ClosedShell.
Context {lib : NumLib}.
Variable cfg : config.
Variable mu : UHF.molecule.
Hypothesis equal_counts : UHF.num_elec_alpha mu = UHF.num_elec_beta mu.

Lemma closed_shell_initial :
  channels_agree (UHF.initial_state mu) /\
  UHF.D_total (UHF.initial_state mu)
    = mplus (UHF.D_alpha (UHF.initial_state mu)) (UHF.D_alpha (UHF.initial_state mu)) /\
  square (UHF.num_ao mu) (UHF.D_alpha (UHF.initial_state mu)).
Proof.
  unfold UHF.initial_state, channels_agree.
  destruct (eigh (UHF.H mu) (UHF.S mu)) as [E C].
  rewrite build_densities_split, <- equal_counts.
  cbn [UHF.D_alpha UHF.D_beta UHF.D_total UHF.F_alpha UHF.F_beta UHF.C_alpha
       UHF.C_beta UHF.F_list_alpha UHF.F_list_beta UHF.DIIS_resid_alpha
       UHF.DIIS_resid_beta].
  split; [repeat split|]. split; [reflexivity|].
  exact (proj1 (build_density_spec _ _ _)).
Qed.

Lemma closed_shell_step (st st' : UHF.state) :
  channels_agree st ->
  UHF.iteration cfg mu st = Ok st' ->
  channels_agree st' /\
  UHF.D_total st' = mplus (UHF.D_alpha st') (UHF.D_alpha st') /\
  square (UHF.num_ao mu) (UHF.D_alpha st').
Proof.
  intros (HD & _ & _ & HL & HR) Hstep.
  apply iteration_inv in Hstep. cbv zeta in Hstep.
  rewrite <- HD, <- HL, <- HR, build_fock_split in Hstep. cbn [fst snd] in Hstep.
  destruct Hstep as (Hex & _ & _ & _ & _ & _ & _ & _ & HCa & HCb &
                     HDa & HDb & HDt & HLa & HLb & HRa & HRb).
  assert (HF : UHF.F_alpha st' = UHF.F_beta st').
  { apply extrapolate_inv in Hex as [(_ & -> & ->) | (_ & Ha & Hb)];
      [reflexivity|].
    rewrite Ha in Hb. exact (Ok_inj _ _ Hb). }
  assert (HC : UHF.C_alpha st' = UHF.C_beta st') by (rewrite HCa, HCb, HF; reflexivity).
  assert (HD' : UHF.D_alpha st' = UHF.D_beta st').
  { rewrite HDa, HDb, HC, equal_counts. reflexivity. }
  unfold channels_agree.
  split; [|split].
  - repeat (split; [assumption|]). split; congruence.
  - rewrite HDt, <- HD'. reflexivity.
  - rewrite HDa. exact (proj1 (build_density_spec _ _ _)).
Qed.

Lemma closed_shell_reachable (st : UHF.state) :
  UHF.reachable cfg mu st ->
  channels_agree st /\
  UHF.D_total st = mplus (UHF.D_alpha st) (UHF.D_alpha st) /\
  square (UHF.num_ao mu) (UHF.D_alpha st).
Proof.
  induction 1 as [|st st' _ IH _ Hstep].
  - apply closed_shell_initial.
  - exact (closed_shell_step st st' (proj1 IH) Hstep).
Qed.

End ClosedShell.

(** C5.  With [N_alpha = N_beta] the two spin channels of the unrestricted
    loop stay equal at every pass; the Fock matrices the pass builds are, in
    both channels, the restricted Fock matrix [H + G] of the shared
    single-channel density [D]; and the electronic energy of the pass is
    the restricted expression [sum(D*(H + F))] at that density and that
    Fock matrix.  Nothing is stated about the iterates of the restricted
    notebook, which starts from the zero density, evaluates its energy with
    the rebuilt density and does not extrapolate. *)
Theorem closed_shell_reduction {lib : NumLib} (cfg : config)
    (mu : UHF.molecule) (mr : RHF.molecule) :
  same_inputs mu mr ->
  UHF.num_elec_alpha mu = UHF.num_elec_beta mu ->
  square (UHF.num_ao mu) (UHF.H mu) ->
  forall st, UHF.reachable cfg mu st ->
    channels_agree st /\
    let D := UHF.D_alpha st in
    let F := mplus (RHF.H mr) (RHF.form_G mr D) in
    UHF.build_fock mu (UHF.D_alpha st) (UHF.D_beta st) = (F, F) /\
    forall st', UHF.iteration cfg mu st = Ok st' ->
      channels_agree st' /\
      last (UHF.F_list_alpha st') = Some F /\
      last (UHF.F_list_beta st') = Some F /\
      UHF.E_elec st' = np_sum (np_multiply D (mplus (RHF.H mr) F)).
Proof.
  intros Hsame HN HH st Hreach.
  destruct (closed_shell_reachable cfg mu HN st Hreach) as (Hagree & HDt & HDsq).
  split; [exact Hagree|]. cbv zeta.
  pose proof (proj1 Hagree) as HD.
  assert (HF : UHF.build_fock mu (UHF.D_alpha st) (UHF.D_beta st)
               = (mplus (RHF.H mr) (RHF.form_G mr (UHF.D_alpha st)),
                  mplus (RHF.H mr) (RHF.form_G mr (UHF.D_alpha st)))).
  { rewrite <- HD. apply build_fock_closed_shell. exact Hsame. }
  split; [exact HF|].
  intros st' Hstep.
  split; [exact (proj1 (closed_shell_step cfg mu HN st st' Hagree Hstep))|].
  apply iteration_inv in Hstep. cbv zeta in Hstep.
  rewrite HF in Hstep. cbn [fst snd] in Hstep.
  destruct Hstep as (_ & _ & HE & _ & _ & _ & _ & _ & _ & _ & _ & _ & _ &
                     HLa & HLb & _).
  split; [rewrite HLa; apply last_snoc|].
  split; [rewrite HLb; apply last_snoc|].
  rewrite HE, HDt, <- HD, <- (same_inputs_H mu mr Hsame).
  apply electronic_energy_closed_shell; [exact HH | exact HDsq|].
  rewrite restricted_form_G, <- (proj1 Hsame).
  apply square_map2; [exact HH | exact (proj1 (contraction_spec _ _ _))].
Qed.

Lemma helium_same_inputs : same_inputs helium helium_packed.
Proof. repeat split. Qed.

Lemma helium_H_square : square (UHF.num_ao helium) (UHF.H helium).
Proof. vm_compute. split; [reflexivity | repeat constructor]. Qed.

Lemma closed_shell_reduction_helium :
  (same_inputs helium helium_packed /\
   UHF.num_elec_alpha helium = UHF.num_elec_beta helium /\
   square (UHF.num_ao helium) (UHF.H helium)) /\
  let st0 := UHF.initial_state (lib := diagonal_basis) helium in
  let F := mplus (RHF.H helium_packed)
             (RHF.form_G helium_packed (UHF.D_alpha st0)) in
  UHF.build_fock helium (UHF.D_alpha st0) (UHF.D_beta st0) = (F, F).
Proof.
  split.
  - split; [exact helium_same_inputs|]. split; [reflexivity | exact helium_H_square].
  - exact (proj1 (proj2 (closed_shell_reduction (lib := diagonal_basis)
             notebook_config helium helium_packed helium_same_inputs eq_refl
             helium_H_square _ (UHF.reach_initial notebook_config helium)))).
Defined.

Section HeliumPaths.
#[local] Existing Instance diagonal_basis.

(** On [helium] the two notebooks do not yield the same electronic
    energy: the first passes give [-3] (unrestricted) and [-4]
    (restricted); the restricted run converges in its third pass with
    energy [-3], and the unrestricted run yields no energy at all, as it
    ends in its second pass with the exception of the DIIS solve. *)
Lemma helium_paths_disagree :
  (same_inputs helium helium_packed /\
   UHF.num_elec_alpha helium = UHF.num_elec_beta helium) /\
  (exists su,
     UHF.iteration notebook_config helium (UHF.initial_state helium) = Ok su /\
     UHF.E_elec su = - three /\
     RHF.E_scf_elec (RHF.iteration notebook_config helium_packed
                       (RHF.initial_state helium_packed)) = - (two + two)) /\
  (exists sr,
     RHF.run (iteration_max notebook_config) notebook_config helium_packed
       = Some sr /\
     RHF.converged sr = true /\ RHF.iteration_num sr = 3%nat /\
     RHF.E_scf_elec sr = - three) /\
  UHF.run (iteration_max notebook_config) notebook_config helium = UHF.Raised.
Proof.
  split; [split; [exact helium_same_inputs | reflexivity]|].
  split; [eexists; split; [vm_compute; reflexivity|]; split; qc_eval|].
  split; [eexists; split; [vm_compute; reflexivity|];
          split; [reflexivity|]; split; [reflexivity | qc_eval]|].
  vm_compute. reflexivity.
Qed.

End HeliumPaths.

(** ** Further facts about the restricted driver and the reference solver *)




(** The reference solver raises exactly on singular matrices. *)
Lemma exact_solve_singular (B : matrix) (r : vector) :
  exact_solve B r = None <-> singular B.
Proof.
  unfold exact_solve, singular.
  case_bool_decide as Hd; split; intros Heq; congruence.
Qed.

Lemma restricted_scf_loop_unfold {lib : NumLib} (fuel : nat) (cfg : config)
    (m : RHF.molecule) (st : RHF.state) :
  RHF.scf_loop fuel cfg m st
  = if RHF.loop_guard st then
      match fuel with
      | O => None
      | Datatypes.S fuel' => RHF.scf_loop fuel' cfg m (RHF.iteration cfg m st)
      end
    else Some st.
Proof. destruct fuel; reflexivity. Qed.

(** The restricted loop has no call that raises: with a ceiling of at least
    one iteration it is left within [iteration_max] passes, with
    [converged] or [exceeded_iterations] set. *)
Lemma restricted_loop_within_ceiling {lib : NumLib} (cfg : config)
    (m : RHF.molecule) (fuel : nat) (st : RHF.state) :
  (RHF.exceeded_iterations st = false ->
     (RHF.iteration_num st < iteration_max cfg)%nat) ->
  (RHF.exceeded_iterations st = true ->
     RHF.iteration_num st = iteration_max cfg) ->
  (iteration_max cfg - RHF.iteration_num st <= fuel)%nat ->
  exists st_end,
    RHF.scf_loop fuel cfg m st = Some st_end /\
    (RHF.iteration_num st_end <= iteration_max cfg)%nat /\
    (RHF.converged st_end = true \/ RHF.exceeded_iterations st_end = true) /\
    (RHF.converged st_end = false ->
       RHF.exceeded_iterations st_end = true /\
       RHF.iteration_num st_end = iteration_max cfg).
Proof.
  revert st. induction fuel as [|fuel IH]; intros st Hlt Heq Hfuel;
    rewrite restricted_scf_loop_unfold;
    destruct (RHF.loop_guard st) eqn:Hguard.
  - apply restricted_loop_guard_true in Hguard as [_ Hexc].
    specialize (Hlt Hexc). lia.
  - exists st. unfold RHF.loop_guard in Hguard.
    destruct (RHF.converged st) eqn:Hc, (RHF.exceeded_iterations st) eqn:Hx;
      try discriminate; repeat split; auto; try discriminate;
      try (specialize (Heq eq_refl); lia); try (specialize (Hlt eq_refl); lia).
  - apply restricted_loop_guard_true in Hguard as [_ Hexc].
    specialize (Hlt Hexc).
    apply IH.
    + unfold RHF.iteration. destruct (eigh _ _) as [E C].
      cbn [RHF.exceeded_iterations RHF.iteration_num]. rewrite Hexc.
      destruct (Nat.eqb_spec (Datatypes.S (RHF.iteration_num st))
                  (iteration_max cfg)); [discriminate | intros _; lia].
    + unfold RHF.iteration. destruct (eigh _ _) as [E C].
      cbn [RHF.exceeded_iterations RHF.iteration_num]. rewrite Hexc.
      destruct (Nat.eqb_spec (Datatypes.S (RHF.iteration_num st))
                  (iteration_max cfg)); [intros _; assumption | discriminate].
    + unfold RHF.iteration. destruct (eigh _ _) as [E C].
      cbn [RHF.iteration_num]. lia.
  - exists st. unfold RHF.loop_guard in Hguard.
    destruct (RHF.converged st) eqn:Hc, (RHF.exceeded_iterations st) eqn:Hx;
      try discriminate; repeat split; auto; try discriminate;
      try (specialize (Heq eq_refl); lia); try (specialize (Hlt eq_refl); lia).
Qed.

Lemma restricted_run_within_ceiling {lib : NumLib} (cfg : config)
    (m : RHF.molecule) :
  (1 <= iteration_max cfg)%nat ->
  exists st_end,
    RHF.run (iteration_max cfg) cfg m = Some st_end /\
    (RHF.iteration_num st_end <= iteration_max cfg)%nat /\
    (RHF.converged st_end = true \/ RHF.exceeded_iterations st_end = true) /\
    (RHF.converged st_end = false ->
       RHF.exceeded_iterations st_end = true /\
       RHF.iteration_num st_end = iteration_max cfg).
Proof.
  intros Hmax. unfold RHF.run.
  apply restricted_loop_within_ceiling; cbn; intros; try discriminate; lia.
Qed.

(** * Further properties of the notebooks' code *)

(** ** The packed index [idx2], [idx4] *)










(** ** The cache of [idx2] *)

Lemma cache_sound_empty : cache_sound ∅.
Proof. intros i j v Hv. rewrite lookup_empty in Hv. discriminate. Qed.

Lemma cache_sound_insert (cache : idx2_cache) (i j : nat) :
  cache_sound cache -> cache_sound (<[(i, j) := RHF.idx2 i j]> cache).
Proof.
  intros Hs i' j' v Hv.
  destruct (decide ((i, j) = (i', j'))) as [Heq|Hne].
  - injection Heq as <- <-. rewrite lookup_insert_eq in Hv. congruence.
  - rewrite lookup_insert_ne in Hv by assumption. exact (Hs i' j' v Hv).
Qed.

Lemma idx2_memo_spec (i j : nat) (cache : idx2_cache) :
  cache_sound cache ->
  fst (idx2_memo i j cache) = RHF.idx2 i j /\
  cache_sound (snd (idx2_memo i j cache)) /\
  snd (idx2_memo i j cache) !! (i, j) = Some (RHF.idx2 i j) /\
  cache ⊆ snd (idx2_memo i j cache).
Proof.
  intros Hs. unfold idx2_memo.
  destruct (cache !! (i, j)) as [v|] eqn:Hc.
  - cbn [fst snd]. pose proof (Hs i j v Hc) as ->.
    split; [reflexivity|]. split; [exact Hs|]. split; [exact Hc | reflexivity].
  - assert (Hv : (if (j <=? i)%nat
                  then ((i * (i + 1) / 2 + j)%nat,
                        <[(i, j) := (i * (i + 1) / 2 + j)%nat]> cache)
                  else ((j * (j + 1) / 2 + i)%nat,
                        <[(i, j) := (j * (j + 1) / 2 + i)%nat]> cache))
                 = (RHF.idx2 i j, <[(i, j) := RHF.idx2 i j]> cache)).
    { unfold RHF.idx2. destruct (j <=? i)%nat; reflexivity. }
    rewrite Hv. cbn [fst snd]. split; [reflexivity|].
    split; [apply cache_sound_insert, Hs|].
    split; [apply lookup_insert_eq | apply insert_subseteq, Hc].
Qed.

(** X3.  Memoisation is transparent.  Starting from a cache whose entries
    are correct (the empty dictionary is), [idx2] and [idx4] return the
    values of the closed formula, leave the cache correct, never drop or
    change an entry, and [idx2] stores the pair it was asked for. *)
Theorem idx_cache_transparent (cache : idx2_cache) :
  cache_sound cache ->
  (forall i j,
     fst (idx2_memo i j cache) = RHF.idx2 i j /\
     cache_sound (snd (idx2_memo i j cache)) /\
     snd (idx2_memo i j cache) !! (i, j) = Some (RHF.idx2 i j) /\
     cache ⊆ snd (idx2_memo i j cache)) /\
  (forall i j k l,
     fst (idx4_memo i j k l cache) = RHF.idx4 i j k l /\
     cache_sound (snd (idx4_memo i j k l cache)) /\
     cache ⊆ snd (idx4_memo i j k l cache)).
Proof.
  intros Hs. split; [intros i j; apply idx2_memo_spec, Hs|].
  intros i j k l. unfold idx4_memo, RHF.idx4.
  destruct (idx2_memo_spec i j cache Hs) as (H1 & Hs1 & _ & Hsub1).
  destruct (idx2_memo i j cache) as [ij c1]. cbn [fst snd] in *. subst ij.
  destruct (idx2_memo_spec k l c1 Hs1) as (H2 & Hs2 & _ & Hsub2).
  destruct (idx2_memo k l c1) as [kl c2]. cbn [fst snd] in *. subst kl.
  destruct (idx2_memo_spec (RHF.idx2 i j) (RHF.idx2 k l) c2 Hs2)
    as (H3 & Hs3 & _ & Hsub3).
  split; [exact H3|]. split; [exact Hs3|].
  etrans; [exact Hsub1|]. etrans; [exact Hsub2 | exact Hsub3].
Qed.

Lemma idx_cache_transparent_empty :
  cache_sound ∅ /\
  fst (idx4_memo 1 4 7 9 ∅) = RHF.idx4 1 4 7 9 /\
  fst (idx4_memo 1 4 7 9 (snd (idx4_memo 9 7 4 1 ∅))) = 1389%nat.
Proof.
  split; [exact cache_sound_empty|]. split.
  - exact (proj1 (proj2 (idx_cache_transparent ∅ cache_sound_empty) 1 4 7 9)%nat).
  - pose proof (proj2 (idx_cache_transparent ∅ cache_sound_empty) 9 7 4 1)%nat
      as (_ & Hs & _).
    rewrite (proj1 (proj2 (idx_cache_transparent _ Hs) 1 4 7 9)%nat).
    reflexivity.
Defined.

(** ** The restricted loop *)








(** ** The contraction with the density *)

Lemma inside_plus (n a b : nat) (x y : Qc) :
  inside n a b (x + y) = inside n a b x + inside n a b y.
Proof. unfold inside. destruct (_ && _); ring. Qed.

Lemma inside_scale (n a b : nat) (c x : Qc) :
  inside n a b (c * x) = c * inside n a b x.
Proof. unfold inside. destruct (_ && _); ring. Qed.

Lemma contraction_plus (n : nat) (D1 D2 : matrix)
    (t : nat -> nat -> nat -> nat -> Qc) :
  square n D1 -> square n D2 ->
  contraction n (mplus D1 D2) t = mplus (contraction n D1 t) (contraction n D2 t).
Proof.
  intros H1 H2.
  pose proof (contraction_spec n D1 t) as [S1 E1].
  pose proof (contraction_spec n D2 t) as [S2 E2].
  pose proof (contraction_spec n (mplus D1 D2) t) as [S12 E12].
  apply (matrix_ext n); [assumption | apply square_map2; assumption|].
  intros a b _ _. rewrite (mget_mplus n), E12, E1, E2, <- inside_plus by assumption.
  f_equal. unfold contraction_formula.
  rewrite <- qsum_plus. apply qsum_ext. intros k _.
  rewrite <- qsum_plus. apply qsum_ext. intros l _.
  rewrite (mget_mplus n) by assumption. ring.
Qed.

Lemma contraction_scale (n : nat) (c : Qc) (D : matrix)
    (t : nat -> nat -> nat -> nat -> Qc) :
  square n D ->
  contraction n (mscale c D) t = mscale c (contraction n D t).
Proof.
  intros HD.
  pose proof (contraction_spec n D t) as [S1 E1].
  pose proof (contraction_spec n (mscale c D) t) as [S2 E2].
  apply (matrix_ext n); [assumption | apply square_mscale; assumption|].
  intros a b _ _. rewrite mget_mscale, E2, E1, <- inside_scale.
  f_equal. unfold contraction_formula.
  rewrite <- qsum_scale. apply qsum_ext. intros k _.
  rewrite <- qsum_scale. apply qsum_ext. intros l _.
  rewrite mget_mscale. ring.
Qed.

(** X6.  "Form G matrix" is linear in the density, in both notebooks:
    the intermediate matrix of a sum of densities is the sum of the
    intermediate matrices, the one of a scaled density is the scaled one,
    and the one of the zero density is zero. *)
Theorem form_G_linear (mu : UHF.molecule) (mr : RHF.molecule) :
  (forall D1 D2 E1 E2,
     square (UHF.num_ao mu) D1 -> square (UHF.num_ao mu) D2 ->
     square (UHF.num_ao mu) E1 -> square (UHF.num_ao mu) E2 ->
     UHF.form_G mu (mplus D1 D2) (mplus E1 E2)
     = (mplus (fst (UHF.form_G mu D1 E1)) (fst (UHF.form_G mu D2 E2)),
        mplus (snd (UHF.form_G mu D1 E1)) (snd (UHF.form_G mu D2 E2)))) /\
  (forall c D E,
     square (UHF.num_ao mu) D -> square (UHF.num_ao mu) E ->
     UHF.form_G mu (mscale c D) (mscale c E)
     = (mscale c (fst (UHF.form_G mu D E)), mscale c (snd (UHF.form_G mu D E)))) /\
  (forall D1 D2,
     square (RHF.num_ao mr) D1 -> square (RHF.num_ao mr) D2 ->
     RHF.form_G mr (mplus D1 D2) = mplus (RHF.form_G mr D1) (RHF.form_G mr D2)) /\
  (forall c D,
     square (RHF.num_ao mr) D ->
     RHF.form_G mr (mscale c D) = mscale c (RHF.form_G mr D)) /\
  (forall a b,
     mget (RHF.form_G mr (zeros (RHF.num_ao mr) (RHF.num_ao mr))) a b = 0).
Proof.
  split; [|split; [|split; [|split]]].
  - intros D1 D2 E1 E2 HD1 HD2 HE1 HE2. rewrite !form_G_split. cbn [fst snd].
    rewrite !contraction_plus by assumption. reflexivity.
  - intros c D E HD HE. rewrite !form_G_split. cbn [fst snd].
    rewrite !contraction_scale by assumption. reflexivity.
  - intros D1 D2 HD1 HD2. rewrite !restricted_form_G.
    apply contraction_plus; assumption.
  - intros c D HD. rewrite !restricted_form_G.
    apply contraction_scale; assumption.
  - intros a b. rewrite restricted_form_G. apply contraction_of_zeros.
Qed.

Lemma form_G_linear_two_site :
  (square 2 (mat2 1 0 0 0) /\ square 2 (mat2 0 0 0 1)) /\
  fst (UHF.form_G two_site (mplus (mat2 1 0 0 0) (mat2 0 0 0 1))
         (mplus (mat2 1 0 0 0) (mat2 0 0 0 1)))
  = mplus (fst (UHF.form_G two_site (mat2 1 0 0 0) (mat2 1 0 0 0)))
          (fst (UHF.form_G two_site (mat2 0 0 0 1) (mat2 0 0 0 1))).
Proof.
  assert (H1 : square 2 (mat2 1 0 0 0)) by (split; [reflexivity | repeat constructor]).
  assert (H2 : square 2 (mat2 0 0 0 1)) by (split; [reflexivity | repeat constructor]).
  split; [split; assumption|].
  exact (f_equal fst (proj1 (form_G_linear two_site helium_packed)
           (mat2 1 0 0 0) (mat2 0 0 0 1) (mat2 1 0 0 0) (mat2 0 0 0 1)
           H1 H2 H1 H2)).
Defined.

(** X7.  In the unrestricted notebook the two spin channels of the Fock
    builder are uncoupled: every entry of [G_alpha] is the sum over [k, l]
    of [D_alpha[k, l] * (2.0 * (ij|kl) - (ik|jl))], so [G_alpha] and
    [F_alpha] do not change when the beta density changes, and conversely;
    and the builder treats the two channels alike. *)
Theorem fock_channels_uncoupled (m : UHF.molecule) (Da Db Da' Db' : matrix) :
  fst (UHF.form_G m Da Db) = fst (UHF.form_G m Da Db') /\
  snd (UHF.form_G m Da Db) = snd (UHF.form_G m Da' Db) /\
  fst (UHF.build_fock m Da Db) = fst (UHF.build_fock m Da Db') /\
  snd (UHF.build_fock m Da Db) = snd (UHF.build_fock m Da' Db) /\
  fst (UHF.build_fock m Da Db) = snd (UHF.build_fock m Db Da) /\
  (forall i j,
     mget (fst (UHF.form_G m Da Db)) i j
     = inside (UHF.num_ao m) i j
         (qsum (UHF.num_ao m) (fun k => qsum (UHF.num_ao m) (fun l =>
            mget Da k l * (two * UHF.eri m i j k l - UHF.eri m i k j l))))).
Proof.
  rewrite !build_fock_split, !form_G_split. cbn [fst snd].
  repeat (split; [reflexivity|]).
  intros i j. apply contraction_spec.
Qed.

(** ** The Pulay system of [diis] *)

Lemma square_mset (n : nat) (M : matrix) (i j : nat) (v : Qc) :
  square n M -> square n (mset M i j v).
Proof.
  intros [Hlen Hrows]. unfold mset. split.
  - rewrite length_alter. exact Hlen.
  - apply Forall_alter; [exact Hrows|].
    intros row _ Hrow. rewrite length_insert. exact Hrow.
Qed.

Lemma mget_mset (n : nat) (M : matrix) (i j : nat) (v : Qc) (a b : nat) :
  square n M -> (i < n)%nat -> (j < n)%nat ->
  mget (mset M i j v) a b
  = if (a =? i)%nat && (b =? j)%nat then v else mget M a b.
Proof.
  intros HM Hi Hj. unfold mget, mset.
  destruct (Nat.eqb_spec a i) as [->|Hai]; cbn [andb].
  - destruct (lookup_lt_is_Some_2 M i) as [row Hrow]; [destruct HM; lia|].
    rewrite list_lookup_alter_eq, Hrow. cbn.
    pose proof (square_row n M i row HM Hrow) as Hlen.
    unfold vget. destruct (Nat.eqb_spec b j) as [->|Hbj].
    + rewrite list_lookup_insert_eq by lia. reflexivity.
    + rewrite list_lookup_insert_ne by congruence. reflexivity.
  - rewrite list_lookup_alter_ne by congruence. reflexivity.
Qed.

Lemma writes_mset (n i j : nat) (f : nat -> nat -> Qc) :
  (i < n)%nat -> (j < n)%nat ->
  writes n (fun G => mset G i j (f i j))
    (fun a b => (a =? i)%nat && (b =? j)%nat) f.
Proof.
  intros Hi Hj G HG. split; [apply square_mset, HG|].
  intros a b. rewrite (mget_mset n) by assumption.
  destruct (Nat.eqb_spec a i) as [->|]; [|reflexivity].
  destruct (Nat.eqb_spec b j) as [->|]; reflexivity.
Qed.

Lemma writes_ext (n : nat) (body : matrix -> matrix)
    (sel sel' : nat -> nat -> bool) (f : nat -> nat -> Qc) :
  (forall a b, sel a b = sel' a b) -> writes n body sel f -> writes n body sel' f.
Proof.
  intros Hsel Hb G HG. destruct (Hb G HG) as [Hsq Hget]. split; [exact Hsq|].
  intros a b. rewrite Hget, Hsel. reflexivity.
Qed.

(** The loop rule for writing bodies. *)
Lemma writes_for_range (n m : nat) (body : nat -> matrix -> matrix)
    (sel : nat -> nat -> nat -> bool) (f : nat -> nat -> Qc) :
  (forall k, (k < m)%nat -> writes n (body k) (sel k) f) ->
  writes n (for_range m body)
    (fun a b => existsb (fun k => sel k a b) (seq 0 m)) f.
Proof.
  induction m as [|m IH]; intros Hbody G HG.
  - split; [exact HG|]. intros a b. reflexivity.
  - rewrite for_range_S.
    destruct (IH (fun k Hk => Hbody k (Nat.lt_lt_succ_r _ _ Hk)) G HG)
      as [Hsq Hget].
    destruct (Hbody m (Nat.lt_succ_diag_r m) _ Hsq) as [Hsq' Hget'].
    split; [exact Hsq'|].
    intros a b. rewrite Hget', Hget, seq_S, existsb_app. cbn [existsb Nat.add].
    destruct (sel m a b), (existsb _ (seq 0 m)); reflexivity.
Qed.

Lemma existsb_pointwise {X : Type} (f g : X -> bool) (l : list X) :
  (forall x, f x = g x) -> existsb f l = existsb g l.
Proof.
  intros Hfg. induction l as [|x l IH]; [reflexivity|].
  cbn [existsb]. rewrite Hfg, IH. reflexivity.
Qed.

Lemma existsb_select (m a : nat) (c : nat -> bool) :
  existsb (fun k => (a =? k)%nat && c k) (seq 0 m) = (a <? m)%nat && c a.
Proof.
  induction m as [|m IH]; [reflexivity|].
  rewrite seq_S, existsb_app, IH. cbn [existsb Nat.add].
  destruct (Nat.eqb_spec a m) as [->|Hne].
  - rewrite Nat.ltb_irrefl, (proj2 (Nat.ltb_lt m (Datatypes.S m))) by lia.
    destruct (c m); reflexivity.
  - rewrite andb_false_l, !orb_false_r. f_equal.
    destruct (Nat.ltb_spec a m), (Nat.ltb_spec a (Datatypes.S m));
      try reflexivity; exfalso; lia.
Qed.

(** The two loops that fill the residual block. *)
Lemma writes_block (n len : nat) (f : nat -> nat -> Qc) :
  (len <= n)%nat ->
  writes n
    (for_range len (fun i => for_range len (fun j B => mset B i j (f i j))))
    (fun a b => (a <? len)%nat && (b <? len)%nat) f.
Proof.
  intros Hlen.
  eapply writes_ext; [|apply writes_for_range; intros i Hi;
                       apply writes_for_range; intros j Hj;
                       apply (writes_mset n i j f); lia].
  intros a b. cbn beta.
  rewrite (existsb_pointwise _ (fun i => (a =? i)%nat && (b <? len)%nat)).
  - rewrite (existsb_select len a (fun _ => (b <? len)%nat)). reflexivity.
  - intros i.
    rewrite (existsb_pointwise _ (fun j => (b =? j)%nat && (a =? i)%nat)).
    + rewrite (existsb_select len b (fun _ => (a =? i)%nat)). apply andb_comm.
    + intros j. apply andb_comm.
Qed.

Lemma vget_replicate (n : nat) (x : Qc) (b : nat) :
  vget (replicate n x) b = if (b <? n)%nat then x else 0.
Proof.
  unfold vget. destruct (Nat.ltb_spec b n) as [Hb|Hb].
  - rewrite lookup_replicate_2 by assumption. reflexivity.
  - rewrite (proj1 (lookup_replicate_None n x b)) by lia. reflexivity.
Qed.

Lemma vget_insert (l : vector) (i : nat) (x : Qc) (b : nat) :
  (i < length l)%nat ->
  vget (<[i := x]> l) b = if (b =? i)%nat then x else vget l b.
Proof.
  intros Hi. unfold vget. destruct (Nat.eqb_spec b i) as [->|Hne].
  - rewrite list_lookup_insert_eq by assumption. reflexivity.
  - rewrite list_lookup_insert_ne by congruence. reflexivity.
Qed.

(** The Pulay matrix before the residual block is filled: [-1] in the
    last row and the last column, [0] in the corner and elsewhere. *)
Lemma pulay_frame (len : nat) :
  let d := (len + 1)%nat in
  let B3 :=
    mset (map (fun row => <[(d - 1)%nat := - 1]> row)
            (alter (fun row => replicate (length row) (- 1)) (d - 1)%nat
               (zeros d d)))
         (d - 1) (d - 1) 0 in
  square d B3 /\
  forall a b,
    mget B3 a b
    = if ((a =? len)%nat && (b <? len)%nat) || ((a <? len)%nat && (b =? len)%nat)
      then - 1 else 0.
Proof.
  intros d B3. subst B3.
  replace (d - 1)%nat with len by (subst d; lia).
  set (B1 := alter (fun row => replicate (length row) (- 1)) len (zeros d d)).
  set (B2 := map (fun row => <[len := - 1]> row) B1).
  assert (H1 : square d B1).
  { destruct (square_zeros d) as [Hl Hr]. split.
    - unfold B1. rewrite length_alter. exact Hl.
    - apply Forall_alter; [exact Hr|].
      intros row _ Hrow. rewrite length_replicate. exact Hrow. }
  assert (H2 : square d B2).
  { destruct H1 as [Hl Hr]. split.
    - unfold B2. rewrite length_map. exact Hl.
    - apply Forall_fmap. eapply Forall_impl; [exact Hr|].
      intros row Hrow. cbn. rewrite length_insert. exact Hrow. }
  assert (E1 : forall a b, mget B1 a b
                 = if (a =? len)%nat && (b <? d)%nat then - 1 else 0).
  { intros a b. unfold mget, B1.
    destruct (Nat.eqb_spec a len) as [->|Hne]; cbn [andb].
    - rewrite list_lookup_alter_eq. unfold zeros.
      rewrite lookup_replicate_2 by (subst d; lia). cbn.
      rewrite length_replicate. apply vget_replicate.
    - rewrite list_lookup_alter_ne by congruence. apply mget_zeros. }
  assert (E2 : forall a b, mget B2 a b
                 = if (a <? d)%nat && (b =? len)%nat then - 1 else mget B1 a b).
  { intros a b. unfold mget at 1. unfold B2. rewrite list_lookup_fmap.
    unfold mget.
    destruct (Nat.ltb_spec a d) as [Ha|Ha], (B1 !! a) as [row|] eqn:Erow;
      cbn [andb fmap option_fmap option_map].
    - pose proof (square_row d B1 a row H1 Erow) as Hlen.
      apply vget_insert. subst d. lia.
    - apply lookup_ge_None in Erow. destruct H1 as [Hl _]. lia.
    - apply lookup_lt_Some in Erow. destruct H1 as [Hl _]. lia.
    - reflexivity. }
  split; [apply square_mset, H2|].
  intros a b. rewrite (mget_mset d) by (assumption || (subst d; lia)).
  rewrite E2, E1. subst d.
  destruct (Nat.eqb_spec a len), (Nat.eqb_spec b len),
           (Nat.ltb_spec a len), (Nat.ltb_spec b len),
           (Nat.ltb_spec a (len + 1)), (Nat.ltb_spec b (len + 1));
    try reflexivity; exfalso; lia.
Qed.

Lemma pulay_B_entries (diis_res : list matrix) (len : nat) :
  square (len + 1) (UHF.pulay_B diis_res len) /\
  forall a b, mget (UHF.pulay_B diis_res len) a b = pulay_entry diis_res len a b.
Proof.
  destruct (pulay_frame len) as [Hsq Hget]. cbv zeta in Hsq, Hget.
  destruct (writes_block (len + 1) len
              (fun a b => einsum_ij_ij (mat_at diis_res a) (mat_at diis_res b))
              ltac:(lia) _ Hsq) as [Hsq' Hget'].
  split; [exact Hsq'|].
  intros a b. unfold UHF.pulay_B. cbv zeta. rewrite Hget', Hget.
  unfold pulay_entry. reflexivity.
Qed.

Lemma map2_comm (f : Qc -> Qc -> Qc) (A B : matrix) :
  (forall x y, f x y = f y x) -> map2 f A B = map2 f B A.
Proof.
  intros Hf. unfold map2. revert B.
  induction A as [|ra A IH]; intros [|rb B]; try reflexivity.
  cbn. rewrite IH. f_equal.
  revert rb. induction ra as [|x ra IHr]; intros [|y rb]; try reflexivity.
  cbn. rewrite IHr, Hf. reflexivity.
Qed.

Lemma einsum_comm (A B : matrix) : einsum_ij_ij A B = einsum_ij_ij B A.
Proof.
  unfold einsum_ij_ij, np_multiply. rewrite (map2_comm Qcmult A B); [reflexivity|].
  intros x y. ring.
Qed.

(** X8.  The matrix [diis] builds from [m] residuals has shape
    [(m + 1, m + 1)]; its entry [(i, j)] is the inner product
    [sum(e_i * e_j)] of the residuals for [i, j < m], [-1] in the rest of
    the last row and of the last column, and [0] in the corner; and it is
    symmetric. *)
Theorem pulay_B_structure (diis_res : list matrix) (len : nat) :
  square (len + 1) (UHF.pulay_B diis_res len) /\
  (forall i j, (i < len)%nat -> (j < len)%nat ->
     mget (UHF.pulay_B diis_res len) i j
     = einsum_ij_ij (mat_at diis_res i) (mat_at diis_res j)) /\
  (forall i, (i < len)%nat ->
     mget (UHF.pulay_B diis_res len) len i = - 1 /\
     mget (UHF.pulay_B diis_res len) i len = - 1) /\
  mget (UHF.pulay_B diis_res len) len len = 0 /\
  symmetric (UHF.pulay_B diis_res len).
Proof.
  destruct (pulay_B_entries diis_res len) as [Hsq Hget].
  split; [exact Hsq|]. split; [|split; [|split]].
  - intros i j Hi Hj. rewrite Hget. unfold pulay_entry.
    rewrite (proj2 (Nat.ltb_lt i len)), (proj2 (Nat.ltb_lt j len)) by assumption.
    reflexivity.
  - intros i Hi. rewrite !Hget. unfold pulay_entry.
    rewrite Nat.ltb_irrefl, Nat.eqb_refl, (proj2 (Nat.ltb_lt i len)) by assumption.
    cbn. rewrite orb_true_r. split; reflexivity.
  - rewrite Hget. unfold pulay_entry. rewrite Nat.ltb_irrefl, Nat.eqb_refl.
    reflexivity.
  - intros i j. rewrite !Hget. unfold pulay_entry.
    rewrite (andb_comm (i <? len)%nat), (einsum_comm (mat_at diis_res i)).
    rewrite (orb_comm ((i =? len)%nat && (j <? len)%nat)).
    rewrite (andb_comm (i <? len)%nat (j =? len)%nat).
    rewrite (andb_comm (i =? len)%nat (j <? len)%nat).
    reflexivity.
Qed.

Lemma pulay_B_structure_two_residuals :
  mget (UHF.pulay_B (mat1 two :: mat1 three :: nil) 2) 0 1 = three + three /\
  mget (UHF.pulay_B (mat1 two :: mat1 three :: nil) 2) 2 1 = - 1.
Proof.
  destruct (pulay_B_structure (mat1 two :: mat1 three :: nil) 2)
    as (_ & Hblock & Hframe & _).
  split.
  - rewrite (Hblock 0 1)%nat by lia. qc_eval.
  - exact (proj1 (Hframe 1%nat ltac:(lia))).
Defined.

(** *** Solutions of the Pulay system *)

Lemma dot_qsum (u v : vector) :
  dot u v = qsum (length u) (fun x => vget u x * vget v x).
Proof.
  unfold dot. revert v. induction u as [|a u IH]; intros v; [reflexivity|].
  cbn [length]. rewrite qsum_shift.
  destruct v as [|b v].
  - cbn. transitivity (0 + qsum (length u) (fun _ => 0)).
    + rewrite qsum_zero. ring.
    + f_equal; [unfold vget; cbn; ring|].
      apply qsum_ext. intros k _. unfold vget. cbn. ring.
  - cbn [zip_with vsum fold_right]. fold (vsum (zip_with Qcmult u v)).
    rewrite IH. reflexivity.
Qed.

Lemma vget_matvec (n : nat) (B : matrix) (x : vector) (i : nat) :
  square n B ->
  vget (matvec B x) i = qsum n (fun k => mget B i k * vget x k).
Proof.
  intros HB. unfold matvec, vget at 1. rewrite list_lookup_fmap.
  unfold mget. destruct (B !! i) as [row|] eqn:Erow; cbn.
  - rewrite dot_qsum, (square_row n B i row HB Erow). reflexivity.
  - symmetry. transitivity (qsum n (fun _ => 0)); [|apply qsum_zero].
    apply qsum_ext. intros k _. ring.
Qed.

Lemma vget_pulay_right (len i : nat) :
  vget (UHF.pulay_right len) i = if (i =? len)%nat then - 1 else 0.
Proof.
  unfold UHF.pulay_right.
  rewrite vget_insert by (rewrite length_replicate; lia).
  destruct (i =? len)%nat; [reflexivity|].
  rewrite vget_replicate. destruct (_ <? _)%nat; reflexivity.
Qed.

(** What a solution of the Pulay system satisfies, row by row. *)
Lemma pulay_solution_rows (diis_res : list matrix) (len : nat) (cn : vector) :
  matvec (UHF.pulay_B diis_res len) cn = UHF.pulay_right len ->
  qsum len (vget cn) = 1 /\
  forall i, (i < len)%nat ->
    qsum len (fun j =>
      einsum_ij_ij (mat_at diis_res i) (mat_at diis_res j) * vget cn j)
    = vget cn len.
Proof.
  intros Hsol.
  destruct (pulay_B_entries diis_res len) as [Hsq Hget].
  assert (Hrow : forall i,
            qsum (len + 1) (fun k => pulay_entry diis_res len i k * vget cn k)
            = if (i =? len)%nat then - 1 else 0).
  { intros i. rewrite <- vget_pulay_right, <- Hsol, (vget_matvec (len + 1)) by assumption.
    apply qsum_ext. intros k _. rewrite Hget. reflexivity. }
  split.
  - specialize (Hrow len). rewrite Nat.eqb_refl, Nat.add_1_r in Hrow.
    cbn [qsum] in Hrow.
    assert (Hlast : pulay_entry diis_res len len len = 0).
    { unfold pulay_entry. rewrite Nat.ltb_irrefl, Nat.eqb_refl. reflexivity. }
    rewrite Hlast in Hrow.
    assert (Hsum : qsum len (fun k => pulay_entry diis_res len len k * vget cn k)
                   = - qsum len (vget cn)).
    { transitivity (qsum len (fun k => - 1 * vget cn k)).
      - apply qsum_ext. intros k Hk. unfold pulay_entry.
        rewrite Nat.ltb_irrefl, Nat.eqb_refl, (proj2 (Nat.ltb_lt k len)) by assumption.
        reflexivity.
      - rewrite qsum_scale. ring. }
    rewrite Hsum in Hrow.
    transitivity (- (- qsum len (vget cn) + 0 * vget cn len)); [ring|].
    rewrite Hrow. ring.
  - intros i Hi. specialize (Hrow i).
    rewrite (proj2 (Nat.eqb_neq i len)), Nat.add_1_r in Hrow by lia.
    cbn [qsum] in Hrow.
    assert (Hlast : pulay_entry diis_res len i len = - 1).
    { unfold pulay_entry.
      rewrite Nat.ltb_irrefl, Nat.eqb_refl, (proj2 (Nat.ltb_lt i len)) by assumption.
      cbn. rewrite orb_true_r. reflexivity. }
    rewrite Hlast in Hrow.
    assert (Hsum : qsum len (fun k => pulay_entry diis_res len i k * vget cn k)
                   = qsum len (fun j =>
                       einsum_ij_ij (mat_at diis_res i) (mat_at diis_res j)
                       * vget cn j)).
    { apply qsum_ext. intros k Hk. unfold pulay_entry.
      rewrite (proj2 (Nat.ltb_lt i len)), (proj2 (Nat.ltb_lt k len)) by assumption.
      reflexivity. }
    rewrite Hsum in Hrow.
    transitivity (qsum len (fun j =>
                    einsum_ij_ij (mat_at diis_res i) (mat_at diis_res j)
                    * vget cn j) + - 1 * vget cn len + vget cn len); [ring|].
    rewrite Hrow. ring.
Qed.

(** X9.  Every solution [cn] of the system [diis] sets up for [m]
    residuals has DIIS coefficients [cn[0], ..., cn[m-1]] that sum to [1],
    and gives every residual the same weighted inner product with the
    others: [sum_j (e_i . e_j) * cn[j] = cn[m]], the Lagrange
    multiplier. *)
Theorem diis_coefficients_sum_to_one (diis_res : list matrix) (len : nat)
    (cn : vector) :
  matvec (UHF.pulay_B diis_res len) cn = UHF.pulay_right len ->
  qsum len (vget cn) = 1 /\
  forall i, (i < len)%nat ->
    qsum len (fun j =>
      einsum_ij_ij (mat_at diis_res i) (mat_at diis_res j) * vget cn j)
    = vget cn len.
Proof.
  intros Hsol. apply pulay_solution_rows. exact Hsol.
Qed.

Lemma pulay_solution_example :
  matvec (UHF.pulay_B (mat1 two :: mat1 three :: nil) 2)
    (three :: - two :: 0 :: nil)
  = UHF.pulay_right 2.
Proof.
  unfold matvec, UHF.pulay_right, dot.
  apply (f_equal2 cons); [qc_eval|].
  apply (f_equal2 cons); [qc_eval|].
  apply (f_equal2 cons); [qc_eval | reflexivity].
Qed.

Lemma diis_coefficients_sum_to_one_example :
  matvec (UHF.pulay_B (mat1 two :: mat1 three :: nil) 2)
    (three :: - two :: 0 :: nil) = UHF.pulay_right 2 /\
  qsum 2 (vget (three :: - two :: 0 :: nil)) = 1.
Proof.
  split; [exact pulay_solution_example|].
  exact (proj1 (diis_coefficients_sum_to_one _ 2 _ pulay_solution_example)).
Defined.

(** *** The extrapolated matrix *)

Lemma adds_axpy (n : nat) (c : Qc) (F : matrix) :
  square n F ->
  adds n (fun G => mplus G (mscale c F)) (fun a b => c * mget F a b).
Proof.
  intros HF G HG. pose proof (square_mscale n c F HF) as HcF.
  split; [apply square_map2; assumption|].
  intros a b. rewrite (mget_mplus n), mget_mscale by assumption. reflexivity.
Qed.

(** [diis] returns the linear combination of the trial matrices. *)
Lemma diis_entries {lib : NumLib} (n : nat) (F_list diis_res : list matrix)
    (cn : vector) :
  Forall (square n) F_list ->
  F_list <> [] ->
  linalg_solve (UHF.pulay_B diis_res (length F_list))
    (UHF.pulay_right (length F_list)) = Some cn ->
  length cn = (length F_list + 1)%nat ->
  exists F,
    UHF.diis F_list diis_res = Ok F /\
    square n F /\
    forall a b,
      mget F a b
      = qsum (length F_list) (fun x => vget cn x * mget (mat_at F_list x) a b).
Proof.
  intros Hl Hne Hsolve Hlen. unfold UHF.diis. rewrite Hsolve, Hlen.
  replace (length F_list + 1 - 1)%nat with (length F_list) by lia.
  eexists. split; [reflexivity|].
  assert (H0 : square n (mat_at F_list 0)).
  { destruct F_list as [|F0 F_list]; [congruence|].
    unfold mat_at. cbn. exact (Forall_inv Hl). }
  destruct (adds_for_range n (length F_list)
              (fun x G => mplus G (mscale (vget cn x) (mat_at F_list x)))
              (fun x a b => vget cn x * mget (mat_at F_list x) a b))
    with (G := zeros_like (mat_at F_list 0)) as [Hsq Hget].
  - intros x Hx. apply adds_axpy.
    destruct (lookup_lt_is_Some_2 F_list x Hx) as [Fx HFx].
    unfold mat_at. rewrite HFx. cbn.
    rewrite Forall_lookup in Hl. exact (Hl x Fx HFx).
  - apply square_zeros_like, H0.
  - split; [exact Hsq|]. intros a b. rewrite Hget, mget_zeros_like. ring.
Qed.

(** X10.  When the solver returns a coefficient vector of the right
    length, [diis] returns the combination [sum_x cn[x] * F_list[x]] of
    the trial Fock matrices, entry by entry, in their shape; if the vector
    solves the Pulay system, an entry on which all trial matrices agree
    keeps that value, so a history of equal trial matrices is returned
    unchanged. *)
Theorem diis_is_affine_combination {lib : NumLib} (n : nat)
    (F_list diis_res : list matrix) (cn : vector) :
  Forall (square n) F_list ->
  F_list <> [] ->
  linalg_solve (UHF.pulay_B diis_res (length F_list))
    (UHF.pulay_right (length F_list)) = Some cn ->
  length cn = (length F_list + 1)%nat ->
  exists F,
    UHF.diis F_list diis_res = Ok F /\
    square n F /\
    (forall a b,
       mget F a b
       = qsum (length F_list) (fun x => vget cn x * mget (mat_at F_list x) a b)) /\
    (matvec (UHF.pulay_B diis_res (length F_list)) cn
       = UHF.pulay_right (length F_list) ->
     (forall a b v,
        (forall x, (x < length F_list)%nat -> mget (mat_at F_list x) a b = v) ->
        mget F a b = v) /\
     (forall F0, Forall (fun M => M = F0) F_list -> F = F0)).
Proof.
  intros Hl Hne Hsolve Hlen.
  destruct (diis_entries n F_list diis_res cn Hl Hne Hsolve Hlen)
    as (F & Hdiis & Hsq & Hget).
  exists F. split; [exact Hdiis|]. split; [exact Hsq|]. split; [exact Hget|].
  intros Hsol.
  pose proof (proj1 (pulay_solution_rows diis_res (length F_list) cn Hsol)) as Hone.
  assert (Hcommon : forall a b v,
            (forall x, (x < length F_list)%nat -> mget (mat_at F_list x) a b = v) ->
            mget F a b = v).
  { intros a b v Hv. rewrite Hget.
    transitivity (qsum (length F_list) (fun x => v * vget cn x)).
    - apply qsum_ext. intros x Hx. rewrite (Hv x Hx). ring.
    - rewrite qsum_scale, Hone. ring. }
  split; [exact Hcommon|].
  intros F0 Hall.
  assert (HF0 : square n F0).
  { destruct F_list as [|M F_list]; [congruence|].
    pose proof (Forall_inv Hall) as HM. pose proof (Forall_inv Hl) as HsqM.
    cbn in HM. subst M. exact HsqM. }
  apply (matrix_ext n); [assumption..|].
  intros a b _ _. apply Hcommon. intros x Hx.
  destruct (lookup_lt_is_Some_2 F_list x Hx) as [Fx HFx].
  unfold mat_at. rewrite HFx. cbn.
  rewrite Forall_lookup in Hall. rewrite (Hall x Fx HFx). reflexivity.
Qed.

Lemma diis_is_affine_combination_example :
  exists F,
    UHF.diis (lib := diagonal_basis)
      (mat1 (- 1) :: mat1 (- 1) :: nil) (mat1 two :: mat1 three :: nil) = Ok F /\
    F = mat1 (- 1).
Proof.
  destruct (diis_is_affine_combination (lib := diagonal_basis) 1
              (mat1 (- 1) :: mat1 (- 1) :: nil) (mat1 two :: mat1 three :: nil)
              (three :: - two :: 0 :: nil))
    as (F & Hdiis & _ & _ & Hsol).
  - repeat constructor.
  - discriminate.
  - cbn [linalg_solve diagonal_basis length].
    unfold exact_solve.
    change (length (UHF.pulay_B (mat1 two :: mat1 three :: nil) 2)) with 3%nat.
    assert (Hd : det 3 (UHF.pulay_B (mat1 two :: mat1 three :: nil) 2) = - 1)
      by qc_eval.
    rewrite Hd. case_bool_decide as Hz; [discriminate Hz|].
    f_equal; cbn [seq map];
      repeat (apply (f_equal2 cons); [qc_eval|]); reflexivity.
  - reflexivity.
  - exists F. split; [exact Hdiis|].
    apply (proj2 (Hsol pulay_solution_example)). repeat constructor.
Defined.

(** ** The DIIS residual *)

Lemma vget_all_zero (row : vector) (j : nat) :
  Forall (fun x => x = 0) row -> vget row j = 0.
Proof.
  intros Hrow. unfold vget. destruct (row !! j) as [x|] eqn:E; [|reflexivity].
  rewrite Forall_lookup in Hrow. exact (Hrow j x E).
Qed.

Lemma mget_all_zero (M : matrix) (i j : nat) : all_zero M -> mget M i j = 0.
Proof.
  intros HM. unfold mget. destruct (M !! i) as [row|] eqn:E; [|reflexivity].
  apply vget_all_zero. unfold all_zero in HM. rewrite Forall_lookup in HM.
  exact (HM i row E).
Qed.

Lemma vsum_all_zero (v : vector) : Forall (fun x => x = 0) v -> vsum v = 0.
Proof.
  induction 1 as [|x v Hx _ IH]; [reflexivity|].
  cbn [vsum fold_right]. fold (vsum v). rewrite Hx, IH. ring.
Qed.

Lemma dot_zero_l (u v : vector) : Forall (fun x => x = 0) u -> dot u v = 0.
Proof.
  intros Hu. unfold dot. apply vsum_all_zero.
  revert v. induction Hu as [|x u Hx _ IH]; intros [|y v]; try constructor.
  - rewrite Hx. ring.
  - apply IH.
Qed.

Lemma dot_zero_r (u v : vector) : Forall (fun x => x = 0) v -> dot u v = 0.
Proof.
  intros Hv. unfold dot. apply vsum_all_zero.
  revert u. induction Hv as [|y v Hy _ IH]; intros [|x u]; try constructor.
  - rewrite Hy. ring.
  - apply IH.
Qed.

Lemma mminus_self_all_zero (X : matrix) : all_zero (mminus X X).
Proof.
  unfold all_zero, mminus, map2.
  induction X as [|row X IH]; [constructor|].
  cbn. constructor; [|exact IH].
  clear. induction row as [|x row IH]; [constructor|].
  cbn. constructor; [ring | exact IH].
Qed.

Lemma transpose_all_zero (Z : matrix) : all_zero Z -> all_zero (transpose Z).
Proof.
  intros HZ. unfold all_zero, transpose.
  apply Forall_fmap, Forall_forall. intros j _. cbn.
  apply Forall_fmap. eapply Forall_impl; [exact HZ|].
  intros row Hrow. cbn. apply vget_all_zero, Hrow.
Qed.

Lemma matmul_zero_r (A Z : matrix) : all_zero Z -> all_zero (matmul A Z).
Proof.
  intros HZ. unfold all_zero, matmul.
  apply Forall_fmap, Forall_forall. intros row _. cbn.
  apply Forall_fmap. eapply Forall_impl; [exact (transpose_all_zero Z HZ)|].
  intros col Hcol. cbn. apply dot_zero_r, Hcol.
Qed.

Lemma matmul_zero_l (Z A : matrix) : all_zero Z -> all_zero (matmul Z A).
Proof.
  intros HZ. unfold all_zero, matmul.
  apply Forall_fmap. eapply Forall_impl; [exact HZ|].
  intros row Hrow. cbn.
  apply Forall_fmap, Forall_forall. intros col _. cbn. apply dot_zero_l, Hrow.
Qed.

Lemma einsum_zero_l (Z E : matrix) : all_zero Z -> einsum_ij_ij Z E = 0.
Proof.
  intros HZ. unfold einsum_ij_ij, np_sum. apply vsum_all_zero.
  apply Forall_fmap. unfold np_multiply, map2.
  revert E. induction HZ as [|row Z Hrow _ IH]; intros [|re E]; try constructor.
  - cbn. apply vsum_all_zero.
    clear -Hrow. revert re.
    induction Hrow as [|x row Hx _ IHr]; intros [|y re]; try constructor.
    + rewrite Hx. ring.
    + apply IHr.
  - apply IH.
Qed.

(** X11.  When the Fock matrix and the density commute in the metric of
    the overlap, [F @ D @ S = S @ D @ F], the residual
    [A.T @ (F @ D @ S - S @ D @ F) @ A] is the zero matrix, whatever [A]
    is; its inner product with every residual is then [0], so that it
    contributes a zero row and a zero column to the residual block of the
    Pulay matrix. *)
Theorem residual_vanishes_at_self_consistency {lib : NumLib}
    (m : UHF.molecule) (F D : matrix) :
  matmul (matmul F D) (UHF.S m) = matmul (matmul (UHF.S m) D) F ->
  all_zero (UHF.diis_gradient m F D) /\
  (forall i j, mget (UHF.diis_gradient m F D) i j = 0) /\
  (forall E, einsum_ij_ij (UHF.diis_gradient m F D) E = 0 /\
             einsum_ij_ij E (UHF.diis_gradient m F D) = 0).
Proof.
  intros Hcomm.
  assert (Hz : all_zero (UHF.diis_gradient m F D)).
  { unfold UHF.diis_gradient. rewrite Hcomm.
    apply matmul_zero_l, matmul_zero_r, mminus_self_all_zero. }
  split; [exact Hz|]. split.
  - intros i j. apply mget_all_zero, Hz.
  - intros E. split; [|rewrite einsum_comm]; apply einsum_zero_l, Hz.
Qed.

Lemma residual_vanishes_at_self_consistency_two_site :
  let D := mat2 1 0 0 0 in
  let F := fst (UHF.build_fock two_site D D) in
  matmul (matmul F D) (UHF.S two_site) = matmul (matmul (UHF.S two_site) D) F /\
  mget (UHF.diis_gradient (lib := diagonal_basis) two_site F D) 0 1 = 0.
Proof.
  cbv zeta.
  assert (Hcomm :
    matmul (matmul (fst (UHF.build_fock two_site (mat2 1 0 0 0) (mat2 1 0 0 0)))
              (mat2 1 0 0 0)) (UHF.S two_site)
    = matmul (matmul (UHF.S two_site) (mat2 1 0 0 0))
        (fst (UHF.build_fock two_site (mat2 1 0 0 0) (mat2 1 0 0 0)))).
  { unfold matmul, transpose, dot.
    repeat (apply (f_equal2 cons);
            [repeat (apply (f_equal2 cons); [qc_eval|]); reflexivity|]).
    reflexivity. }
  split; [exact Hcomm|].
  exact (proj1 (proj2 (residual_vanishes_at_self_consistency
           (lib := diagonal_basis) two_site _ _ Hcomm)) 0%nat 1%nat).
Defined.

(** ** What the unrestricted loop keeps *)

(** X12.  The DIIS lists are append-only: a pass appends exactly one
    entry to each of the four lists, the Fock matrix it built and its
    residual, and changes no earlier entry; so at the head of every pass
    each list holds as many entries as passes were made, and nothing is
    ever pruned. *)
Theorem diis_lists_append_only {lib : NumLib} (cfg : config) (m : UHF.molecule)
    (st : UHF.state) :
  UHF.reachable cfg m st ->
  (length (UHF.F_list_alpha st) = UHF.iteration_num st /\
   length (UHF.F_list_beta st) = UHF.iteration_num st /\
   length (UHF.DIIS_resid_alpha st) = UHF.iteration_num st /\
   length (UHF.DIIS_resid_beta st) = UHF.iteration_num st) /\
  forall st', UHF.iteration cfg m st = Ok st' ->
    let F0 := UHF.build_fock m (UHF.D_alpha st) (UHF.D_beta st) in
    UHF.F_list_alpha st' = UHF.F_list_alpha st ++ fst F0 :: nil /\
    UHF.F_list_beta st' = UHF.F_list_beta st ++ snd F0 :: nil /\
    UHF.DIIS_resid_alpha st'
      = UHF.DIIS_resid_alpha st
        ++ UHF.diis_gradient m (fst F0) (UHF.D_alpha st) :: nil /\
    UHF.DIIS_resid_beta st'
      = UHF.DIIS_resid_beta st
        ++ UHF.diis_gradient m (snd F0) (UHF.D_beta st) :: nil /\
    (forall x M, UHF.F_list_alpha st !! x = Some M ->
                 UHF.F_list_alpha st' !! x = Some M) /\
    (forall x M, UHF.DIIS_resid_alpha st !! x = Some M ->
                 UHF.DIIS_resid_alpha st' !! x = Some M).
Proof.
  intros Hreach. split; [exact (reachable_history_length cfg m st Hreach)|].
  intros st' Hstep F0.
  apply iteration_inv in Hstep. cbv zeta in Hstep.
  destruct Hstep as (_ & _ & _ & _ & _ & _ & _ & _ & _ & _ & _ & _ & _ &
                     HLa & HLb & HRa & HRb).
  fold F0 in HLa, HLb, HRa, HRb.
  repeat (split; [assumption|]).
  split; intros x M Hx.
  - rewrite HLa. apply lookup_app_l_Some, Hx.
  - rewrite HRa. apply lookup_app_l_Some, Hx.
Qed.

Lemma diis_lists_append_only_helium :
  exists st1,
    UHF.reachable (lib := diagonal_basis) notebook_config helium st1 /\
    length (UHF.F_list_alpha st1) = 1%nat /\
    UHF.iteration_num st1 = 1%nat.
Proof.
  eexists. split.
  - eapply UHF.reach_iteration; [apply UHF.reach_initial | reflexivity |].
    vm_compute. reflexivity.
  - split; [|reflexivity].
    refine (proj1 (proj1 (diis_lists_append_only (lib := diagonal_basis)
              notebook_config helium _ _))).
    eapply UHF.reach_iteration; [apply UHF.reach_initial | reflexivity |].
    vm_compute. reflexivity.
Defined.

(** X13.  The total energy is reported only on convergence: at the head
    of every pass and at the end of a run, [E_total] is
    [E_elec + E_nuc] if [converged] is set and still has its initial value
    [0] otherwise, in particular when the run ended at the ceiling. *)
Theorem total_energy_only_on_convergence {lib : NumLib} (cfg : config)
    (m : UHF.molecule) :
  (forall st, UHF.reachable cfg m st ->
     (UHF.converged st = true -> UHF.E_total st = UHF.E_elec st + UHF.E_nuc m) /\
     (UHF.converged st = false -> UHF.E_total st = 0)) /\
  (forall fuel st_end,
     UHF.run fuel cfg m = UHF.Finished st_end ->
     (UHF.converged st_end = true ->
        UHF.E_total st_end = UHF.E_elec st_end + UHF.E_nuc m) /\
     (UHF.converged st_end = false -> UHF.E_total st_end = 0)).
Proof.
  assert (Hinv : forall st, UHF.reachable cfg m st ->
            (UHF.converged st = true ->
               UHF.E_total st = UHF.E_elec st + UHF.E_nuc m) /\
            (UHF.converged st = false -> UHF.E_total st = 0)).
  { induction 1 as [|st st' _ IH Hguard Hstep].
    - unfold UHF.initial_state.
      destruct (eigh _ _) as [E C], (UHF.build_densities _ _ _ _ _) as [Da Db].
      cbn. split; [discriminate | reflexivity].
    - apply loop_guard_true in Hguard as [Hconv _].
      apply iteration_inv in Hstep. cbv zeta in Hstep.
      destruct Hstep as (_ & _ & HE & _ & _ & Hc & _ & Ht & _).
      rewrite Hc, Ht, HE.
      destruct (UHF.convergence_test _ _ _).
      + split; [reflexivity | discriminate].
      + rewrite Hconv. split; [discriminate | intros _; apply IH, Hconv]. }
  split; [exact Hinv|].
  intros fuel st_end Hrun. apply Hinv.
  unfold UHF.run in Hrun.
  assert (Hgen : forall fuel st, UHF.reachable cfg m st ->
            UHF.scf_loop fuel cfg m st = UHF.Finished st_end ->
            UHF.reachable cfg m st_end).
  { clear. induction fuel as [|fuel IH]; intros st Hreach;
      rewrite scf_loop_unfold; destruct (UHF.loop_guard st) eqn:Hguard.
    - discriminate.
    - intros Heq.
      assert (st = st_end) as <-; [|exact Hreach].
      exact (f_equal (fun o => match o with UHF.Finished s => s | _ => st end) Heq).
    - destruct (UHF.iteration cfg m st) as [st'|] eqn:Hstep; [|discriminate].
      apply IH. exact (UHF.reach_iteration cfg m st st' Hreach Hguard Hstep).
    - intros Heq.
      assert (st = st_end) as <-; [|exact Hreach].
      exact (f_equal (fun o => match o with UHF.Finished s => s | _ => st end) Heq). }
  exact (Hgen fuel _ (UHF.reach_initial cfg m) Hrun).
Qed.

Lemma total_energy_only_on_convergence_helium :
  exists st_end,
    UHF.run (lib := diagonal_basis) 1 one_pass_config helium
      = UHF.Finished st_end /\
    UHF.converged st_end = true /\
    UHF.E_total st_end = UHF.E_elec st_end + UHF.E_nuc helium.
Proof.
  eexists. split; [vm_compute; reflexivity|]. split; [reflexivity|].
  refine (proj1 (proj2 (total_energy_only_on_convergence
            (lib := diagonal_basis) one_pass_config helium) 1%nat _ _) _).
  - vm_compute. reflexivity.
  - reflexivity.
Defined.

(** X14.  At the head of every pass of the unrestricted loop the three
    densities have shape [(n, n)], [D_total] is the entrywise sum
    [D_alpha + D_beta], and each spin density has the entries
    [sum_{k < N} C[i, k] * C[j, k]] of the eigenvectors it was built
    from: those of the core guess before the first pass, those of the
    last diagonalisation afterwards. *)
Theorem densities_at_loop_head {lib : NumLib} (cfg : config) (m : UHF.molecule)
    (st : UHF.state) :
  UHF.reachable cfg m st ->
  let n := UHF.num_ao m in
  let Ca := if (UHF.iteration_num st =? 0)%nat
            then snd (eigh (UHF.H m) (UHF.S m)) else UHF.C_alpha st in
  let Cb := if (UHF.iteration_num st =? 0)%nat
            then snd (eigh (UHF.H m) (UHF.S m)) else UHF.C_beta st in
  square n (UHF.D_alpha st) /\ square n (UHF.D_beta st) /\
  square n (UHF.D_total st) /\
  UHF.D_total st = mplus (UHF.D_alpha st) (UHF.D_beta st) /\
  (forall i j, mget (UHF.D_total st) i j
               = mget (UHF.D_alpha st) i j + mget (UHF.D_beta st) i j) /\
  (forall i j, mget (UHF.D_alpha st) i j
               = inside n i j (density_formula (UHF.num_elec_alpha m) Ca i j)) /\
  (forall i j, mget (UHF.D_beta st) i j
               = inside n i j (density_formula (UHF.num_elec_beta m) Cb i j)).
Proof.
  intros Hreach n Ca Cb.
  assert (Hshape : forall Na Nb C C' Dt,
            Dt = mplus (RHF.build_density n Na C) (RHF.build_density n Nb C') ->
            square n (RHF.build_density n Na C) /\
            square n (RHF.build_density n Nb C') /\
            square n Dt /\
            Dt = mplus (RHF.build_density n Na C) (RHF.build_density n Nb C') /\
            (forall i j, mget Dt i j
               = mget (RHF.build_density n Na C) i j
                 + mget (RHF.build_density n Nb C') i j) /\
            (forall i j, mget (RHF.build_density n Na C) i j
               = inside n i j (density_formula Na C i j)) /\
            (forall i j, mget (RHF.build_density n Nb C') i j
               = inside n i j (density_formula Nb C' i j))).
  { intros Na Nb C C' Dt ->.
    pose proof (build_density_spec n Na C) as [Sa Ea].
    pose proof (build_density_spec n Nb C') as [Sb Eb].
    split; [exact Sa|]. split; [exact Sb|].
    split; [apply square_map2; assumption|]. split; [reflexivity|].
    split; [intros i j; apply (mget_mplus n); assumption|].
    split; assumption. }
  subst Ca Cb. destruct Hreach as [|st st' _ _ Hstep].
  - pose proof (initial_state_fields m) as Hinit. cbv zeta in Hinit.
    destruct Hinit as (-> & _ & _ & HDa & HDb & HDt & _).
    cbn [Nat.eqb]. rewrite HDa, HDb in HDt |- *. apply Hshape. exact HDt.
  - apply iteration_inv in Hstep. cbv zeta in Hstep.
    destruct Hstep as (_ & -> & _ & _ & _ & _ & _ & _ & _ & _ &
                       HDa & HDb & HDt & _).
    cbn [Nat.eqb]. rewrite HDa, HDb in HDt |- *. apply Hshape. exact HDt.
Qed.

Lemma densities_at_loop_head_two_site :
  UHF.reachable (lib := diagonal_basis) notebook_config two_site
    (UHF.initial_state (lib := diagonal_basis) two_site) /\
  mget (UHF.D_total (UHF.initial_state (lib := diagonal_basis) two_site)) 0 0
  = mget (UHF.D_alpha (UHF.initial_state (lib := diagonal_basis) two_site)) 0 0
    + mget (UHF.D_beta (UHF.initial_state (lib := diagonal_basis) two_site)) 0 0.
Proof.
  split; [apply UHF.reach_initial|].
  exact (proj1 (proj2 (proj2 (proj2 (proj2 (densities_at_loop_head
           (lib := diagonal_basis) notebook_config two_site _
           (UHF.reach_initial notebook_config two_site)))))) 0%nat 0%nat).
Defined.

(** ** The electron count of a density *)

Lemma inside_in (n a b : nat) (x : Qc) :
  (a < n)%nat -> (b < n)%nat -> inside n a b x = x.
Proof.
  intros Ha Hb. unfold inside.
  rewrite !bool_decide_eq_true_2 by assumption. reflexivity.
Qed.

Lemma qsum_scale_r (n : nat) (c : Qc) (f : nat -> Qc) :
  qsum n (fun k => f k * c) = qsum n f * c.
Proof. induction n as [|n IH]; cbn [qsum]; [ring|]. rewrite IH. ring. Qed.

Lemma qsum_ones (N : nat) :
  qsum N (fun _ => 1) = Q2Qc (inject_Z (Z.of_nat N)).
Proof.
  induction N as [|N IH]; [apply Qc_is_canon; reflexivity|].
  cbn [qsum]. rewrite IH. apply Qc_is_canon.
  cbn [this Qcplus Q2Qc]. rewrite !Qred_correct.
  rewrite Nat2Z.inj_succ, <- Z.add_1_r, inject_Z_plus. reflexivity.
Qed.

(** X15.  When the eigenvector columns the density is built from are
    normalised in the metric of the overlap, [C[:, k] . S . C[:, k] = 1]
    for the [N] occupied columns (as [eigh(F, S)] returns them), the
    density the loops build counts the electrons of its channel:
    [sum(D * S) = N]. *)
Theorem density_counts_electrons (n N : nat) (C S : matrix) :
  square n S ->
  (forall k, (k < N)%nat ->
     qsum n (fun i => qsum n (fun j => mget C i k * mget S i j * mget C j k)) = 1) ->
  np_sum (np_multiply (RHF.build_density n N C) S) = Q2Qc (inject_Z (Z.of_nat N)) /\
  np_sum (np_multiply (fst (UHF.build_densities n N N C C)) S)
  = Q2Qc (inject_Z (Z.of_nat N)).
Proof.
  intros HS Hnorm.
  assert (Hcount : np_sum (np_multiply (RHF.build_density n N C) S)
                   = Q2Qc (inject_Z (Z.of_nat N))).
  { pose proof (build_density_spec n N C) as [HD ED].
    rewrite (np_sum_square n) by (apply square_map2; assumption).
    rewrite <- qsum_ones.
    transitivity (qsum n (fun i => qsum N (fun k => qsum n (fun j =>
                    mget C i k * mget S i j * mget C j k)))).
    - apply qsum_ext. intros i Hi. rewrite qsum_swap.
      apply qsum_ext. intros j Hj.
      rewrite (mget_np_multiply n), ED, inside_in by assumption.
      unfold density_formula. rewrite <- qsum_scale_r.
      apply qsum_ext. intros k _. ring.
    - rewrite qsum_swap. apply qsum_ext. intros k Hk. apply Hnorm, Hk. }
  split; [exact Hcount|].
  rewrite build_densities_split. exact Hcount.
Qed.

Lemma density_counts_electrons_two_site :
  (square 2 (UHF.S two_site) /\
   forall k, (k < 1)%nat ->
     qsum 2 (fun i => qsum 2 (fun j =>
       mget (mat2 1 0 0 1) i k * mget (UHF.S two_site) i j
       * mget (mat2 1 0 0 1) j k)) = 1) /\
  np_sum (np_multiply (RHF.build_density 2 1 (mat2 1 0 0 1)) (UHF.S two_site))
  = Q2Qc (inject_Z (Z.of_nat 1)).
Proof.
  assert (HS : square 2 (UHF.S two_site))
    by (split; [reflexivity | repeat constructor]).
  assert (Hnorm : forall k, (k < 1)%nat ->
            qsum 2 (fun i => qsum 2 (fun j =>
              mget (mat2 1 0 0 1) i k * mget (UHF.S two_site) i j
              * mget (mat2 1 0 0 1) j k)) = 1).
  { intros k Hk. replace k with 0%nat by lia. qc_eval. }
  split; [split; assumption|].
  exact (proj1 (density_counts_electrons 2 1 (mat2 1 0 0 1) (UHF.S two_site)
                  HS Hnorm)).
Defined.

(** ** Repeated residuals *)

Lemma vector_ext (u v : vector) :
  length u = length v -> (forall i, vget u i = vget v i) -> u = v.
Proof.
  intros Hlen Hget. apply list_eq. intros i.
  specialize (Hget i). unfold vget in Hget.
  destruct (u !! i) as [x|] eqn:Eu, (v !! i) as [y|] eqn:Ev; cbn in Hget.
  - congruence.
  - apply lookup_lt_Some in Eu. apply lookup_ge_None in Ev. lia.
  - apply lookup_lt_Some in Ev. apply lookup_ge_None in Eu. lia.
  - reflexivity.
Qed.

Lemma qsum_pick (n p : nat) (f : nat -> Qc) :
  (p < n)%nat ->
  qsum n (fun k => f k * (if (k =? p)%nat then 1 else 0)) = f p.
Proof.
  intros Hp.
  rewrite (qsum_ext n _ (fun k => if bool_decide (p = k) then f k else 0)).
  - rewrite qsum_select, bool_decide_eq_true_2 by assumption. reflexivity.
  - intros k _. destruct (Nat.eqb_spec k p) as [->|Hne].
    + rewrite bool_decide_eq_true_2 by reflexivity. ring.
    + rewrite bool_decide_eq_false_2 by congruence. ring.
Qed.

Lemma qsum_sub (n : nat) (f g : nat -> Qc) :
  qsum n (fun k => f k - g k) = qsum n f - qsum n g.
Proof. induction n as [|n IH]; cbn [qsum]; [ring|]. rewrite IH. ring. Qed.

Lemma vget_move_weight (c : vector) (p q k : nat) :
  (p < length c)%nat -> (q < length c)%nat -> p <> q ->
  vget (move_weight c p q) k
  = vget c k + (if (k =? p)%nat then 1 else 0) - (if (k =? q)%nat then 1 else 0).
Proof.
  intros Hp Hq Hpq. unfold move_weight.
  rewrite vget_insert by (rewrite length_insert; assumption).
  destruct (Nat.eqb_spec k q) as [->|Hkq].
  - rewrite (proj2 (Nat.eqb_neq q p)) by congruence. ring.
  - rewrite vget_insert by assumption.
    destruct (Nat.eqb_spec k p) as [->|Hkp]; ring.
Qed.

(** X16.  When two of the stored residuals are equal (as they are once the
    loop repeats a pass exactly, at self-consistency), the system [diis]
    sets up has no unique solution: from any solution, moving weight [1]
    from one of the two coefficients to the other gives a different
    solution, so the system does not determine the coefficients. *)
Theorem equal_residuals_make_pulay_system_degenerate
    (diis_res : list matrix) (len p q : nat) (c : vector) :
  (p < q)%nat -> (q < len)%nat ->
  mat_at diis_res p = mat_at diis_res q ->
  length c = (len + 1)%nat ->
  matvec (UHF.pulay_B diis_res len) c = UHF.pulay_right len ->
  move_weight c p q <> c /\
  matvec (UHF.pulay_B diis_res len) (move_weight c p q) = UHF.pulay_right len.
Proof.
  intros Hpq Hq Hres Hlen Hsol.
  destruct (pulay_B_entries diis_res len) as [Hsq Hget].
  split.
  - intros Heq. apply (f_equal (fun v => vget v p)) in Heq.
    rewrite vget_move_weight, Nat.eqb_refl, (proj2 (Nat.eqb_neq p q)) in Heq
      by lia.
    assert (Hone : (1 : Qc) = 0).
    { transitivity (vget c p + 1 - 0 - vget c p); [ring|]. rewrite Heq. ring. }
    discriminate Hone.
  - rewrite <- Hsol. apply vector_ext.
    + unfold matvec. rewrite !length_map. reflexivity.
    + intros i. rewrite !(vget_matvec (len + 1)) by assumption.
      transitivity (qsum (len + 1) (fun k =>
                       mget (UHF.pulay_B diis_res len) i k * vget c k)
                    + mget (UHF.pulay_B diis_res len) i p
                    - mget (UHF.pulay_B diis_res len) i q).
      * rewrite <- (qsum_pick (len + 1) p
                     (fun k => mget (UHF.pulay_B diis_res len) i k)) by lia.
        rewrite <- (qsum_pick (len + 1) q
                     (fun k => mget (UHF.pulay_B diis_res len) i k)) by lia.
        rewrite <- qsum_plus.
        rewrite <- qsum_sub. apply qsum_ext. intros k _.
        rewrite vget_move_weight by lia. ring.
      * rewrite !Hget. unfold pulay_entry.
        rewrite (proj2 (Nat.ltb_lt p len)), (proj2 (Nat.ltb_lt q len)),
          (proj2 (Nat.eqb_neq p len)), (proj2 (Nat.eqb_neq q len)), Hres by lia.
        ring.
Qed.

Lemma equal_residuals_example :
  matvec (UHF.pulay_B (mat1 two :: mat1 two :: nil) 2)
    (1 :: 0 :: (two + two) :: nil) = UHF.pulay_right 2 /\
  matvec (UHF.pulay_B (mat1 two :: mat1 two :: nil) 2)
    (move_weight (1 :: 0 :: (two + two) :: nil) 0 1) = UHF.pulay_right 2.
Proof.
  assert (Hsol : matvec (UHF.pulay_B (mat1 two :: mat1 two :: nil) 2)
                   (1 :: 0 :: (two + two) :: nil) = UHF.pulay_right 2).
  { unfold matvec, UHF.pulay_right, dot.
    repeat (apply (f_equal2 cons); [qc_eval|]). reflexivity. }
  split; [exact Hsol|].
  refine (proj2 (equal_residuals_make_pulay_system_degenerate
                   (mat1 two :: mat1 two :: nil) 2 0 1 _ _ _ _ _ Hsol));
    (lia || reflexivity).
Defined.

(** ** Degenerate stopping criteria *)

Lemma finished_reachable {lib : NumLib} (cfg : config) (m : UHF.molecule)
    (fuel : nat) (st st_end : UHF.state) :
  UHF.reachable cfg m st ->
  UHF.scf_loop fuel cfg m st = UHF.Finished st_end ->
  UHF.reachable cfg m st_end /\ UHF.loop_guard st_end = false.
Proof.
  revert st. induction fuel as [|fuel IH]; intros st Hreach;
    rewrite scf_loop_unfold; destruct (UHF.loop_guard st) eqn:Hguard.
  - discriminate.
  - intros Heq.
    assert (st = st_end) as <-; [|split; assumption].
    exact (f_equal (fun o => match o with UHF.Finished s => s | _ => st end) Heq).
  - destruct (UHF.iteration cfg m st) as [st'|] eqn:Hstep; [|discriminate].
    apply IH. exact (UHF.reach_iteration cfg m st st' Hreach Hguard Hstep).
  - intros Heq.
    assert (st = st_end) as <-; [|split; assumption].
    exact (f_equal (fun o => match o with UHF.Finished s => s | _ => st end) Heq).
Qed.

Lemma restricted_finished_reachable {lib : NumLib} (cfg : config)
    (m : RHF.molecule) (fuel : nat) (st st_end : RHF.state) :
  restricted_reachable cfg m st ->
  RHF.scf_loop fuel cfg m st = Some st_end ->
  restricted_reachable cfg m st_end /\ RHF.loop_guard st_end = false.
Proof.
  revert st. induction fuel as [|fuel IH]; intros st Hreach;
    rewrite restricted_scf_loop_unfold; destruct (RHF.loop_guard st) eqn:Hguard.
  - discriminate.
  - intros [= <-]. split; assumption.
  - apply IH. apply restricted_reach_iteration; assumption.
  - intros [= <-]. split; assumption.
Qed.




(** X18.  With a ceiling of zero [exceeded_iterations] is never set: the
    counter is [1] after the first pass and only grows, so the test
    [iteration_num == iteration_max] never holds; both loops then make at
    least one pass and can only be left by convergence (or, in the
    unrestricted notebook, by an exception). *)
Theorem zero_ceiling_never_reported {lib : NumLib} (cfg : config) :
  iteration_max cfg = 0%nat ->
  (forall (m : UHF.molecule) (st : UHF.state),
     UHF.reachable cfg m st -> UHF.exceeded_iterations st = false) /\
  (forall (m : UHF.molecule) (fuel : nat) (st_end : UHF.state),
     UHF.run fuel cfg m = UHF.Finished st_end ->
     UHF.converged st_end = true /\ UHF.exceeded_iterations st_end = false /\
     (1 <= UHF.iteration_num st_end)%nat) /\
  (forall (m : RHF.molecule) (fuel : nat) (st_end : RHF.state),
     RHF.run fuel cfg m = Some st_end ->
     RHF.converged st_end = true /\ RHF.exceeded_iterations st_end = false /\
     (1 <= RHF.iteration_num st_end)%nat).
Proof.
  intros Hzero.
  assert (HU : forall (m : UHF.molecule) st, UHF.reachable cfg m st ->
            UHF.exceeded_iterations st = false /\
            (UHF.converged st = true -> (1 <= UHF.iteration_num st)%nat)).
  { intros m st Hreach. induction Hreach as [|st st' _ IH _ Hstep].
    - pose proof (initial_state_fields m) as Hinit. cbv zeta in Hinit.
      destruct Hinit as (_ & -> & -> & _). split; [reflexivity | discriminate].
    - apply iteration_inv in Hstep. cbv zeta in Hstep.
      destruct Hstep as (_ & Hnum & _ & _ & _ & _ & Hx & _).
      rewrite Hx, Hzero, Hnum. cbn [Nat.eqb]. split; [apply IH | intros _; lia]. }
  assert (HR : forall (m : RHF.molecule) st, restricted_reachable cfg m st ->
            RHF.exceeded_iterations st = false /\
            (RHF.converged st = true -> (1 <= RHF.iteration_num st)%nat)).
  { intros m st Hreach. induction Hreach as [|st _ IH _].
    - split; [reflexivity | discriminate].
    - unfold RHF.iteration. destruct (eigh _ _) as [E C].
      cbn [RHF.exceeded_iterations RHF.iteration_num RHF.converged].
      rewrite Hzero. cbn [Nat.eqb]. split; [apply IH | intros _; lia]. }
  split; [intros m st Hreach; apply (HU m st Hreach)|]. split.
  - intros m fuel st_end Hrun.
    destruct (finished_reachable cfg m fuel _ _ (UHF.reach_initial cfg m) Hrun)
      as [Hreach Hguard].
    destruct (HU m st_end Hreach) as [Hx Hnum].
    unfold UHF.loop_guard in Hguard. rewrite Hx in Hguard.
    assert (Hc : UHF.converged st_end = true)
      by (destruct (UHF.converged st_end); [reflexivity | discriminate]).
    split; [exact Hc|]. split; [exact Hx | exact (Hnum Hc)].
  - intros m fuel st_end Hrun.
    destruct (restricted_finished_reachable cfg m fuel _ _
                (restricted_reach_initial cfg m) Hrun) as [Hreach Hguard].
    destruct (HR m st_end Hreach) as [Hx Hnum].
    unfold RHF.loop_guard in Hguard. rewrite Hx in Hguard.
    assert (Hc : RHF.converged st_end = true)
      by (destruct (RHF.converged st_end); [reflexivity | discriminate]).
    split; [exact Hc|]. split; [exact Hx | exact (Hnum Hc)].
Qed.

Lemma zero_ceiling_never_reported_helium :
  iteration_max zero_ceiling_config = 0%nat /\
  exists st_end,
    RHF.run (lib := diagonal_basis) 3 zero_ceiling_config helium_packed
      = Some st_end /\
    RHF.converged st_end = true /\
    RHF.exceeded_iterations st_end = false /\
    RHF.iteration_num st_end = 3%nat.
Proof.
  split; [reflexivity|].
  eexists. split; [vm_compute; reflexivity|].
  pose proof (proj2 (proj2 (zero_ceiling_never_reported (lib := diagonal_basis)
                zero_ceiling_config eq_refl)) helium_packed 3%nat) as Hend.
  split; [|split; [|reflexivity]].
  - refine (proj1 (Hend _ _)). vm_compute. reflexivity.
  - refine (proj1 (proj2 (Hend _ _))). vm_compute. reflexivity.
Defined.
